(** * publish-informational-card: token resolution and publish transform

    A shallow embedding of [src/app-builder/publish-informational-card.js]
    (the Adobe I/O Runtime action) and the properties of its two units:
    the token resolver [resolveStaticTokens] and the publish transformer
    [main]; and of the function [resolveProfileTokens] of the card
    component, which resolves the profile tokens of a published text when
    the card is rendered.

    JavaScript strings are sequences of UTF-16 code units; the two regular
    expressions of the action carry no [u] flag, so they work on code units.
    The module-level [PROFILE_TOKEN_REGEX] carries the [g] flag, so its
    [lastIndex] is mutable state shared by every call of [test]; it is
    threaded explicitly, through the resolver and through [main].

    The first part holds the embedding: strings and patterns, numbers and
    values, the resolver, the network, [main] and the renderer.  The
    second part holds the properties: the matcher, the token pattern, the
    scan of the resolver, the runs of [main], and the renderer. *)

From Stdlib Require Import ZArith String Ascii.
From stdpp Require Import gmap list.

Local Open Scope N_scope.

(** ** Strings *)

Definition jsstring := list N.

Definition str (s : string) : jsstring :=
  map N_of_ascii (list_ascii_of_string s).

Definition LBRACE : N := 123.
Definition RBRACE : N := 125.

(** ECMAScript WhiteSpace and LineTerminator code units: the set matched by
    [\s] and stripped by [String.prototype.trim]. *)
Definition is_ws (c : N) : bool :=
  ((9 <=? c) && (c <=? 13)) || (c =? 32) || (c =? 160) || (c =? 5760)
  || ((8192 <=? c) && (c <=? 8202)) || (c =? 8232) || (c =? 8233)
  || (c =? 8239) || (c =? 8287) || (c =? 12288) || (c =? 65279).

(** The class [[^}]]. *)
Definition not_rbrace (c : N) : bool := negb (c =? RBRACE).

Fixpoint drop_while (p : N -> bool) (s : jsstring) : jsstring :=
  match s with
  | c :: s' => if p c then drop_while p s' else s
  | [] => []
  end.

(** The longest prefix of [s] within the class [p], and what follows. *)
Fixpoint span (p : N -> bool) (s : jsstring) : jsstring * jsstring :=
  match s with
  | c :: s' =>
      if p c then let '(a, b) := span p s' in (c :: a, b) else ([], s)
  | [] => ([], [])
  end.

(** [String.prototype.trim]. *)
Definition trim (s : jsstring) : jsstring :=
  reverse (drop_while is_ws (reverse (drop_while is_ws s))).

(** ** Regular expressions

    The fragment of the pattern language the action uses: literals,
    greedy [*] and [+] over a character class, one capture group and
    concatenation.  Matching is by backtracking, written in
    continuation-passing style: a quantifier tries the longest repetition
    first and gives characters back while the continuation fails. *)

Inductive regex : Type :=
| Eps
| Lit (c : N)
| StarC (p : N -> bool)
| PlusC (p : N -> bool)
| Group (r : regex)
| Seq (r1 r2 : regex).

Definition cat (l : list regex) : regex := foldr Seq Eps l.
Definition lits (s : jsstring) : regex := cat (map Lit s).

Record match_result := MatchResult {
  matched : jsstring;          (* the matched substring *)
  group1 : option jsstring;    (* capture 1, [None] when it took no part *)
  rest : jsstring              (* the input after the match *)
}.

Section Matcher.
Context {R : Type}.

Fixpoint star (p : N -> bool) (s : jsstring) (k : jsstring -> option R)
  : option R :=
  match s with
  | c :: s' =>
      if p c then
        match star p s' k with
        | Some r => Some r
        | None => k s
        end
      else k s
  | [] => k []
  end.

Fixpoint rmatch (r : regex) (s : jsstring) (cap : option jsstring)
    (k : jsstring -> option jsstring -> option R) : option R :=
  match r with
  | Eps => k s cap
  | Lit c =>
      match s with
      | x :: s' => if x =? c then k s' cap else None
      | [] => None
      end
  | StarC p => star p s (fun s' => k s' cap)
  | PlusC p =>
      match s with
      | x :: s' => if p x then star p s' (fun s'' => k s'' cap) else None
      | [] => None
      end
  | Group r' =>
      rmatch r' s cap
        (fun s' _ => k s' (Some (take (length s - length s') s)))
  | Seq r1 r2 =>
      rmatch r1 s cap (fun s' cap' => rmatch r2 s' cap' k)
  end.
End Matcher.

(** A match of [r] that starts at the first character of [s]. *)
Definition match_at (r : regex) (s : jsstring) : option match_result :=
  rmatch r s None
    (fun s' cap => Some (MatchResult (take (length s - length s') s) cap s')).

(** The leftmost match of [r] in [s], with the number of characters before
    it. *)
Fixpoint search (r : regex) (s : jsstring) : option (nat * match_result) :=
  match match_at r s with
  | Some m => Some (O, m)
  | None =>
      match s with
      | [] => None
      | _ :: s' =>
          match search r s' with
          | Some (i, m) => Some (S i, m)
          | None => None
          end
      end
  end.

(** [RegExpBuiltinExec] for a regular expression with the [g] flag: the
    search starts at [lastIndex]; a match moves [lastIndex] to its end and
    a failure resets it to 0. *)
Definition RegExp_exec (r : regex) (s : jsstring) (lastIndex : nat)
  : option (nat * match_result) * nat :=
  if (length s <? lastIndex)%nat then (None, O)
  else
    match search r (drop lastIndex s) with
    | Some (i, m) =>
        (Some ((lastIndex + i)%nat, m),
         (lastIndex + i + length (matched m))%nat)
    | None => (None, O)
    end.

(** [RegExp.prototype.test]. *)
Definition RegExp_test (r : regex) (s : jsstring) (lastIndex : nat)
  : bool * nat :=
  match RegExp_exec r s lastIndex with
  | (Some _, li) => (true, li)
  | (None, li) => (false, li)
  end.

(** ** Numbers

    A JavaScript number is NaN, an infinity, or a finite value, which is
    written here by its decimal representation [m * 10^e], in canonical
    form: [m] is not a multiple of 10, and zero is [Fin 0 0] (the sign of
    zero is not kept: nothing in the action tells the two zeros apart).
    Numbers enter the action only through JSON and [Number(...)] and leave
    it only through string conversion; no arithmetic is done on them.
    Rounding to binary64 is not modelled, so the model is exact on
    decimals of up to 15 significant digits within the binary64 range;
    beyond that the code rounds or overflows where the model does not
    (["1e400"] is Infinity in the code).  [safe_number] below tells the
    numbers on which a theorem about the value of a number relies. *)

Inductive number : Type :=
| NaN
| Infinity (negative : bool)
| Fin (m e : Z).

Fixpoint strip_zeros (fuel : nat) (m e : Z) : Z * Z :=
  match fuel with
  | O => (m, e)
  | S fuel' =>
      if (m mod 10 =? 0)%Z then strip_zeros fuel' (m / 10)%Z (e + 1)%Z
      else (m, e)
  end.

Definition mk_fin (m e : Z) : number :=
  if (m =? 0)%Z then Fin 0 0
  else let '(m', e') := strip_zeros (Z.to_nat (Z.log2 (Z.abs m))) m e in
       Fin m' e'.

Definition num_of_Z (z : Z) : number := mk_fin z 0.

Definition digit_char (d : N) : N := 48 + d.

Fixpoint uint_chars (u : Decimal.uint) : jsstring :=
  match u with
  | Decimal.Nil => []
  | Decimal.D0 u' => digit_char 0 :: uint_chars u'
  | Decimal.D1 u' => digit_char 1 :: uint_chars u'
  | Decimal.D2 u' => digit_char 2 :: uint_chars u'
  | Decimal.D3 u' => digit_char 3 :: uint_chars u'
  | Decimal.D4 u' => digit_char 4 :: uint_chars u'
  | Decimal.D5 u' => digit_char 5 :: uint_chars u'
  | Decimal.D6 u' => digit_char 6 :: uint_chars u'
  | Decimal.D7 u' => digit_char 7 :: uint_chars u'
  | Decimal.D8 u' => digit_char 8 :: uint_chars u'
  | Decimal.D9 u' => digit_char 9 :: uint_chars u'
  end.

(** The decimal digits of a natural number, ["0"] for zero. *)
Definition N_to_string (n : N) : jsstring := uint_chars (N.to_uint n).

(** [Number::toString] in radix 10. *)
Definition Number_toString (x : number) : jsstring :=
  match x with
  | NaN => str "NaN"
  | Infinity false => str "Infinity"
  | Infinity true => str "-Infinity"
  | Fin m e =>
      if (m =? 0)%Z then str "0"
      else
        let sign := if (m <? 0)%Z then str "-" else [] in
        let ds := N_to_string (Z.to_N (Z.abs m)) in
        let k := Z.of_nat (length ds) in
        let n := (e + k)%Z in
        let expo :=
          (if (n - 1 <? 0)%Z then str "e-" else str "e+")
          ++ N_to_string (Z.to_N (Z.abs (n - 1))) in
        sign ++
        (if ((k <=? n) && (n <=? 21))%Z then
           ds ++ replicate (Z.to_nat (n - k)) (digit_char 0)
         else if ((0 <? n) && (n <=? 21))%Z then
           take (Z.to_nat n) ds ++ str "." ++ drop (Z.to_nat n) ds
         else if ((-6 <? n) && (n <=? 0))%Z then
           str "0." ++ replicate (Z.to_nat (- n)) (digit_char 0) ++ ds
         else if (k =? 1)%Z then ds ++ expo
         else take 1 ds ++ str "." ++ drop 1 ds ++ expo)
  end.

Definition is_digit (c : N) : bool := (48 <=? c) && (c <=? 57).

Definition digits_value (base : Z) (val : N -> Z) (ds : jsstring) : Z :=
  fold_left (fun acc d => (acc * base + val d)%Z) ds 0%Z.

Definition dec_val (c : N) : Z := Z.of_N (c - 48).

Definition hex_val (c : N) : option Z :=
  if is_digit c then Some (Z.of_N (c - 48))
  else if (97 <=? c) && (c <=? 102) then Some (Z.of_N (c - 87))
  else if (65 <=? c) && (c <=? 70) then Some (Z.of_N (c - 55))
  else None.

(** [NonDecimalIntegerLiteral]: [0x], [0o] and [0b] literals, no sign. *)
Definition parse_nondecimal (t : jsstring) : option number :=
  match t with
  | 48 :: x :: ds =>
      let base :=
        if (x =? 120) || (x =? 88) then Some 16%Z
        else if (x =? 111) || (x =? 79) then Some 8%Z
        else if (x =? 98) || (x =? 66) then Some 2%Z
        else None in
      match base, ds with
      | Some b, _ :: _ =>
          let in_base c :=
            match hex_val c with
            | Some v => (v <? b)%Z
            | None => false
            end in
          if forallb in_base ds then
            Some (num_of_Z
                    (digits_value b (fun c => default 0%Z (hex_val c)) ds))
          else None
      | _, _ => None
      end
  | _ => None
  end.

(** [ExponentPart], or nothing. *)
Definition parse_exponent (t : jsstring) : option Z :=
  match t with
  | [] => Some 0%Z
  | x :: t' =>
      if (x =? 101) || (x =? 69) then
        let '(neg, ds) :=
          match t' with
          | 45 :: ds => (true, ds)
          | 43 :: ds => (false, ds)
          | _ => (false, t')
          end in
        match ds with
        | [] => None
        | _ :: _ =>
            if forallb is_digit ds then
              let v := digits_value 10 dec_val ds in
              Some (if neg then (- v)%Z else v)
            else None
        end
      else None
  end.

(** [StrDecimalLiteral]. *)
Definition parse_decimal (t : jsstring) : option number :=
  let '(neg, u) :=
    match t with
    | 45 :: u => (true, u)
    | 43 :: u => (false, u)
    | _ => (false, t)
    end in
  if bool_decide (u = str "Infinity") then Some (Infinity neg)
  else
    let '(ip, r1) := span is_digit u in
    let '(fp, r2) :=
      match r1 with
      | 46 :: r => span is_digit r
      | _ => ([], r1)
      end in
    match ip ++ fp with
    | [] => None
    | _ :: _ =>
        match parse_exponent r2 with
        | Some ex =>
            let v := digits_value 10 dec_val (ip ++ fp) in
            Some (mk_fin (if neg then (- v)%Z else v)
                         (ex - Z.of_nat (length fp))%Z)
        | None => None
        end
    end.

(** [StringToNumber]: the empty or blank string is 0, a string outside
    the numeric grammar is NaN. *)
Definition StringToNumber (s : jsstring) : number :=
  match trim s with
  | [] => Fin 0 0
  | t =>
      match parse_nondecimal t with
      | Some n => n
      | None => default NaN (parse_decimal t)
      end
  end.

(** ** Values

    The values that reach the action through JSON, and [undefined]. An
    object is the list of its own properties. *)

#[warnings="-register-all"]
Inductive jsval : Type :=
| JUndefined
| JNull
| JBool (b : bool)
| JNum (n : number)
| JStr (s : jsstring)
| JArr (l : list jsval)
| JObj (fields : list (jsstring * jsval)).

Fixpoint lookup_field (k : jsstring) (fields : list (jsstring * jsval))
  : jsval :=
  match fields with
  | [] => JUndefined
  | (k', v) :: fields' =>
      if bool_decide (k' = k) then v else lookup_field k fields'
  end.

(** [v?.k] for the property names the action reads ([elements], [value]
    and the field names), none of which is defined on a prototype: the
    own property of an object, [undefined] on anything else. *)
Definition get (v : jsval) (k : string) : jsval :=
  match v with
  | JObj fields => lookup_field (str k) fields
  | _ => JUndefined
  end.

Definition ToBoolean (v : jsval) : bool :=
  match v with
  | JUndefined | JNull => false
  | JBool b => b
  | JNum NaN => false
  | JNum (Infinity _) => true
  | JNum (Fin m _) => negb (m =? 0)%Z
  | JStr s => match s with [] => false | _ :: _ => true end
  | JArr _ | JObj _ => true
  end.

(** [a || b] *)
Definition or_else (a b : jsval) : jsval := if ToBoolean a then a else b.

(** [String(v)], as in a template literal.  The conversion of an object
    calls its [toString]: for an object without an own property of that
    name this is the inherited one, which gives ["[object Object]"].  An
    own property [toString], which JSON can carry and which is then not
    a function, makes the conversion of the code throw a TypeError; the
    function here has no error to give, and [primitive] below tells the
    values on which nothing can be thrown. *)
Fixpoint ToString (v : jsval) : jsstring :=
  match v with
  | JUndefined => str "undefined"
  | JNull => str "null"
  | JBool true => str "true"
  | JBool false => str "false"
  | JNum n => Number_toString n
  | JStr s => s
  | JArr l =>
      (fix join (l : list jsval) : jsstring :=
         let elem x :=
           match x with
           | JUndefined | JNull => []
           | _ => ToString x
           end in
         match l with
         | [] => []
         | [x] => elem x
         | x :: l' => elem x ++ str "," ++ join l'
         end) l
  | JObj _ => str "[object Object]"
  end.

(** [Number(v)].  An object or an array goes through its conversion to
    a string, and throws in the code where that throws. *)
Definition ToNumber (v : jsval) : number :=
  match v with
  | JUndefined => NaN
  | JNull => Fin 0 0
  | JBool true => Fin 1 0
  | JBool false => Fin 0 0
  | JNum n => n
  | JStr s => StringToNumber s
  | JArr _ | JObj _ => StringToNumber (ToString v)
  end.

(** The values that are not objects: their conversion to a string or to
    a number runs no code of the value and cannot throw. *)
Definition primitive (v : jsval) : bool :=
  match v with
  | JArr _ | JObj _ => false
  | _ => true
  end.




(** ** Results of effectful code *)

Inductive error : Type :=
| TypeError (msg : string)
| SyntaxError (msg : string)
| FetchError (msg : string)
| Error (msg : jsstring).

Inductive result (A : Type) : Type :=
| Ok (a : A)
| Throw (e : error).
Arguments Ok {A} a.
Arguments Throw {A} e.

(** Computations over a state [St] that may throw. *)
Definition M (St A : Type) : Type := St -> result A * St.

Definition ret {St A} (a : A) : M St A := fun st => (Ok a, st).
Definition throw {St A} (e : error) : M St A := fun st => (Throw e, st).
Definition bind {St A B} (m : M St A) (f : A -> M St B) : M St B :=
  fun st =>
    match m st with
    | (Ok a, st') => f a st'
    | (Throw e, st') => (Throw e, st')
    end.

Declare Scope js_scope.
Delimit Scope js_scope with js.
Notation "x <- c1 ;; c2" := (bind c1 (fun x => c2))
  (at level 100, c1 at next level, right associativity) : js_scope.

(** [String.prototype.replace] with a global pattern and a function as the
    replacement: every match, left to right, is replaced by what the
    function returns for it, the text between matches is copied.  After an
    empty match the scan moves on by one character.  The pattern of a call
    is a fresh object, so its own [lastIndex] starts at 0.  JavaScript
    collects the matches before it calls the function; the function here
    does not touch the pattern or the text, so calling it on the way gives
    the same result.  The fuel is the length of the text plus one, which
    is enough: every round consumes a character. *)
Fixpoint replace_loop {St} (fuel : nat) (r : regex)
    (f : match_result -> M St jsstring) (s : jsstring) : M St jsstring :=
  match fuel with
  | O => ret s
  | S fuel' =>
      match search r s with
      | None => ret s
      | Some (i, m) =>
          (repl <- f m ;;
           out <- match matched m, rest m with
                  | _ :: _, s' => replace_loop fuel' r f s'
                  | [], c :: s' =>
                      (out' <- replace_loop fuel' r f s' ;; ret (c :: out'))
                  | [], [] => ret []
                  end ;;
           ret (take i s ++ repl ++ out))%js
      end
  end.

Definition replace {St} (r : regex) (f : match_result -> M St jsstring)
    (s : jsstring) : M St jsstring :=
  replace_loop (S (length s)) r f s.

(** ** The token resolver *)

(** [/\{\{\s*profile\.[^}]+\}\}/g] *)
Definition PROFILE_TOKEN_REGEX : regex :=
  cat [Lit LBRACE; Lit LBRACE; StarC is_ws; lits (str "profile.");
       PlusC not_rbrace; Lit RBRACE; Lit RBRACE].

(** [/\{\{\s*([^}]+)\s*\}\}/g] *)
Definition TOKEN_REGEX : regex :=
  cat [Lit LBRACE; Lit LBRACE; StarC is_ws; Group (PlusC not_rbrace);
       StarC is_ws; Lit RBRACE; Lit RBRACE].

(** The function passed to [replace], [(match, token) => { ... }].  Its
    state is [PROFILE_TOKEN_REGEX.lastIndex], which [test] reads and
    writes. *)
Definition replacer (staticTokens : gmap jsstring jsstring)
    (m : match_result) : M nat jsstring :=
  match group1 m with
  | None => throw (TypeError "Cannot read properties of undefined")
  | Some token =>
      let trimmed := trim token in
      fun lastIndex =>
        let '(is_profile, lastIndex') :=
          RegExp_test PROFILE_TOKEN_REGEX (matched m) lastIndex in
        if is_profile then (Ok (matched m), lastIndex')
        else
          match staticTokens !! trimmed with
          | Some v => (Ok v, lastIndex')
          | None => (Ok (matched m), lastIndex')
          end
  end.

(** [input.replace(/\{\{\s*([^}]+)\s*\}\}/g, ...)] on a string. *)
Definition resolve_text (staticTokens : gmap jsstring jsstring)
    (input : jsstring) : M nat jsstring :=
  replace TOKEN_REGEX (replacer staticTokens) input.

(** [resolveStaticTokens(input, staticTokens)]: a falsy input is returned
    as it is; a truthy input that is not a string has no [replace] method,
    so the call throws. *)
Definition resolveStaticTokens (input : jsval)
    (staticTokens : gmap jsstring jsstring) : M nat jsval :=
  if negb (ToBoolean input) then ret input
  else
    match input with
    | JStr s => (out <- resolve_text staticTokens s ;; ret (JStr out))%js
    | _ => throw (TypeError "input.replace is not a function")
    end.

(** ** The network

    [fetch] is the only way the action touches the outside.  A request is
    answered by the environment [net]; every request issued is recorded.
    The body of a [PUT] is kept as the payload object that
    [JSON.stringify] is applied to. *)

Inductive http_method := GET | PUT.

Record payload := Payload {
  p_cardId : jsval;
  p_headline : jsval;
  p_body : jsval;
  p_image : jsval;
  p_ctaLabel : jsval;
  p_ctaAction : jsval;
  p_termsText : jsval;
  p_cacheTTL : jsval
}.

Record request := Request {
  req_method : http_method;
  req_url : jsstring;
  req_headers : list (jsstring * jsstring);
  req_body : option payload
}.

Record response := Response {
  res_ok : bool;
  res_status : N;
  res_text : jsstring;          (* the body, as [res.text()] gives it *)
  res_json : option jsval       (* the body parsed, [None] if not JSON *)
}.

(** What the environment answers: a response, or [None] when the request
    itself fails (the promise of [fetch] is rejected). *)
Definition network := request -> option response.

Record world := World {
  lastIndex : nat;              (* [PROFILE_TOKEN_REGEX.lastIndex] *)
  sent : list request           (* the requests issued so far *)
}.

Definition fetch (net : network) (req : request) : M world response :=
  fun w =>
    let w' := World (lastIndex w) (sent w ++ [req]) in
    match net req with
    | Some res => (Ok res, w')
    | None => (Throw (FetchError "request failed"), w')
    end.

(** Runs a computation of the resolver in the world. *)
Definition with_lastIndex {A} (m : M nat A) : M world A :=
  fun w =>
    let '(r, li) := m (lastIndex w) in
    (r, World li (sent w)).

(** A template-literal hole filled with a parameter that may be absent. *)
Definition opt_string (o : option jsstring) : jsstring :=
  default (str "undefined") o.

(** [res.json()] of node-fetch: a body that is not JSON is rejected with
    a FetchError of the library. *)
Definition res_json_body (res : response) : M world jsval :=
  match res_json res with
  | Some v => ret v
  | None => throw (FetchError "invalid json response body")
  end.

Definition fetchAemJson (net : network) (url : jsstring)
    (accessToken : option jsstring) : M world jsval :=
  (res <- fetch net
     (Request GET url
        [(str "Authorization", str "Bearer " ++ opt_string accessToken);
         (str "Content-Type", str "application/json")]
        None) ;;
   if negb (res_ok res) then
     throw (Error (str "AEM fetch failed: " ++ N_to_string (res_status res)
                   ++ str " " ++ res_text res))
   else res_json_body res)%js.

Definition putAemJson (net : network) (url : jsstring)
    (accessToken : option jsstring) (body : payload) (ttlSeconds : number)
  : M world jsval :=
  (res <- fetch net
     (Request PUT url
        [(str "Authorization", str "Bearer " ++ opt_string accessToken);
         (str "Content-Type", str "application/json");
         (str "Cache-Control",
          str "public, max-age=" ++ Number_toString ttlSeconds
          ++ str ", immutable")]
        (Some body)) ;;
   if negb (res_ok res) then
     throw (Error (str "AEM publish write failed: "
                   ++ N_to_string (res_status res)
                   ++ str " " ++ res_text res))
   else res_json_body res)%js.

(** ** The publish transformer *)

(** The invocation parameters; [None] is an absent parameter. *)
Record params := Params {
  cfPath : option jsstring;
  authorHost : option jsstring;
  publishHost : option jsstring;
  authorAccessToken : option jsstring;
  publishAccessToken : option jsstring;
  staticTokens : option (gmap jsstring jsstring)
}.

Inductive outcome_body :=
| BodyText (msg : jsstring)
| BodyPublished (message publishUrl : jsstring).

Record outcome := Outcome {
  statusCode : N;
  body : outcome_body
}.

(** [!p] for a string parameter. *)
Definition missing (p : option jsstring) : bool :=
  match p with
  | None | Some [] => true
  | Some (_ :: _) => false
  end.

(** [exports.main].  The two conversions of values of the record,
    [Number(...)] of the time to live and [`${cardId}`] in the address of
    the write, are [ToNumber] and [ToString]: they cannot throw on a
    primitive, and the code throws a TypeError, after the read and before
    any write, on an object with an own property [toString].  So the
    model never issues fewer requests than the code; the properties that
    assert a write assume primitive values there. *)
Definition main (net : network) (p : params) : M world outcome :=
  let staticTokens := default ∅ (staticTokens p) in
  if missing (cfPath p) || missing (authorHost p) || missing (publishHost p)
  then ret (Outcome 400 (BodyText (str "Missing required parameters")))
  else
    let cfUrl :=
      opt_string (authorHost p) ++ opt_string (cfPath p)
      ++ str ".model.json" in
    (cfJson <- fetchAemJson net cfUrl (authorAccessToken p) ;;
     let elements := or_else (get cfJson "elements") (JObj []) in
     let cardId := get (get elements "cardId") "value" in
     if negb (ToBoolean cardId) then
       ret (Outcome 422 (BodyText (str "cardId is required")))
     else
       let ttl :=
         ToNumber (or_else (get (get elements "cacheTTL") "value")
                           (JNum (num_of_Z 86400))) in
       headline <- with_lastIndex
         (resolveStaticTokens (get (get elements "headline") "value")
            staticTokens) ;;
       body <- with_lastIndex
         (resolveStaticTokens (get (get elements "body") "value")
            staticTokens) ;;
       let image := or_else (get (get elements "image") "value") JNull in
       ctaLabel <- with_lastIndex
         (resolveStaticTokens (get (get elements "ctaLabel") "value")
            staticTokens) ;;
       let ctaAction :=
         or_else (get (get elements "ctaAction") "value")
                 (JStr (str "browser")) in
       termsText <- with_lastIndex
         (resolveStaticTokens (get (get elements "termsText") "value")
            staticTokens) ;;
       let payload :=
         Payload cardId headline body image ctaLabel ctaAction termsText
                 (JNum ttl) in
       let publishUrl :=
         opt_string (publishHost p) ++ str "/content/cards/"
         ++ ToString cardId ++ str ".json" in
       _ <- putAemJson net publishUrl (publishAccessToken p) payload ttl ;;
       ret (Outcome 200
              (BodyPublished (str "Card payload published") publishUrl)))%js.

(** ** Tokens and the scan, spelled out

    The definitions below are not part of the action: they say, without
    the matcher, what the action is proved to do.

    A match of the token pattern is two opening braces, a non-empty run of
    characters other than a closing brace, and two closing braces.  The
    capture is the run without its leading white space, or its last
    character when the run is all white space (the first quantifier gives
    one character back). *)

(** A token as it stands in a text. *)
Definition token (c : jsstring) : jsstring :=
  LBRACE :: LBRACE :: c ++ [RBRACE; RBRACE].

Definition capture (c : jsstring) : jsstring :=
  match drop_while is_ws c with
  | [] => drop (length c - 1) c
  | c' => c'
  end.

Definition token_match (s : jsstring) : option match_result :=
  match s with
  | a :: b :: x =>
      if (a =? LBRACE) && (b =? LBRACE) then
        match span not_rbrace x with
        | (h :: c, d :: e :: r) =>
            if (d =? RBRACE) && (e =? RBRACE) then
              Some (MatchResult (token (h :: c)) (Some (capture (h :: c))) r)
            else None
        | _ => None
        end
      else None
  | _ => None
  end.

(** The token pattern behind the opening braces and the leading white
    space. *)
Definition TOKEN_TAIL : regex :=
  cat [Group (PlusC not_rbrace); StarC is_ws; Lit RBRACE; Lit RBRACE].

(** [resolves tbl s li out li']: scanning [s] with [lastIndex = li] yields
    [out] and leaves [lastIndex = li'].  A character at which no token
    starts is copied; a token is handed to [replacer] and the scan goes on
    behind it. *)
Inductive resolves (tbl : gmap jsstring jsstring)
  : jsstring -> nat -> jsstring -> nat -> Prop :=
| resolves_nil li : resolves tbl [] li [] li
| resolves_copy c s li out li' :
    match_at TOKEN_REGEX (c :: s) = None ->
    resolves tbl s li out li' ->
    resolves tbl (c :: s) li (c :: out) li'
| resolves_token s m li v li1 out li2 :
    match_at TOKEN_REGEX s = Some m ->
    replacer tbl m li = (Ok v, li1) ->
    resolves tbl (rest m) li1 out li2 ->
    resolves tbl s li (v ++ out) li2.

(** The request [fetchAemJson] issues for the parameters [p], and the
    request [putAemJson] issues for a card. *)
Definition author_request (p : params) : request :=
  Request GET
    (opt_string (authorHost p) ++ opt_string (cfPath p)
     ++ str ".model.json")
    [(str "Authorization", str "Bearer " ++ opt_string (authorAccessToken p));
     (str "Content-Type", str "application/json")]
    None.

Definition publish_request (p : params) (cardId : jsval) (pl : payload)
    (ttl : number) : request :=
  Request PUT
    (opt_string (publishHost p) ++ str "/content/cards/"
     ++ ToString cardId ++ str ".json")
    [(str "Authorization", str "Bearer " ++ opt_string (publishAccessToken p));
     (str "Content-Type", str "application/json");
     (str "Cache-Control",
      str "public, max-age=" ++ Number_toString ttl ++ str ", immutable")]
    (Some pl).

(** A text without any [{{...}}] sequence: two opening braces followed,
    anywhere later, by two closing braces. *)
Definition token_free (t : jsstring) : Prop :=
  forall a c b,
    t <> a ++ LBRACE :: LBRACE :: c ++ RBRACE :: RBRACE :: b.

(** A table whose values are non-empty and without braces, and whose keys
    neither start with [profile.] nor contain an opening brace. *)
Definition plain_table (tbl : gmap jsstring jsstring) : Prop :=
  forall k v,
    tbl !! k = Some v ->
    v <> [] /\ (LBRACE ∉ v) /\ (RBRACE ∉ v)
    /\ ~ (str "profile." `prefix_of` k) /\ (LBRACE ∉ k).

(** [closes x]: behind two opening braces, [x] completes a token. *)
Definition closes (x : jsstring) : Prop :=
  exists c r, c <> [] /\ Forall (fun a => not_rbrace a = true) c
              /\ x = c ++ RBRACE :: RBRACE :: r.

(** The value of a field of the fetched record, as [main] reads it:
    [elements?.name?.value] with [elements = cfJson?.elements || {}]. *)
Definition element_value (cfJson : jsval) (name : string) : jsval :=
  get (get (or_else (get cfJson "elements") (JObj [])) name) "value".

(** The values on which the resolver does not throw: strings and falsy
    values. *)
Definition is_text (v : jsval) : bool :=
  match v with
  | JStr _ => true
  | _ => negb (ToBoolean v)
  end.

(** The value of a header of a request. *)
Fixpoint assoc (name : jsstring) (l : list (jsstring * jsstring))
  : option jsstring :=
  match l with
  | [] => None
  | (k, v) :: l' => if bool_decide (k = name) then Some v else assoc name l'
  end.

Definition header (q : request) (name : string) : option jsstring :=
  assoc (str name) (req_headers q).

(** The time to live [main] takes from a fetched record. *)
Definition ttl_of (cfJson : jsval) : number :=
  ToNumber (or_else (element_value cfJson "cacheTTL")
                    (JNum (num_of_Z 86400))).

(** The payload [main] assembles from a fetched record, given the four
    resolved texts. *)
Definition payload_of (cfJson headline body ctaLabel termsText : jsval)
  : payload :=
  Payload (element_value cfJson "cardId") headline body
    (or_else (element_value cfJson "image") JNull) ctaLabel
    (or_else (element_value cfJson "ctaAction") (JStr (str "browser")))
    termsText (JNum (ttl_of cfJson)).

(** ** Sample data *)

Definition card_record (fields : list (string * jsval)) : jsval :=
  JObj [(str "elements",
         JObj (map (fun '(k, v) => (str k, JObj [(str "value", v)])) fields))].

Definition cup_record : jsval :=
  card_record
    [("cardId", JStr (str "cup"));
     ("headline", JStr (str "Hi {{env.brand}}, {{profile.name}}"));
     ("cacheTTL", JNum (num_of_Z 3600))]%string.

Definition demo_table : gmap jsstring jsstring :=
  {[ str "x" := str "V" ]}.

Definition brand_table : gmap jsstring jsstring :=
  {[ str "env.brand" := str "Acme" ]}.

Definition demo_params : params :=
  Params (Some (str "/content/dam/cards/personal-cup"))
         (Some (str "https://author.example.aem.cloud"))
         (Some (str "https://publish.example.aem.cloud"))
         (Some (str "AUTHOR")) (Some (str "PUBLISH"))
         (Some brand_table).

(** An environment that answers every read with [record] and accepts
    every write. *)
Definition serve (record : jsval) : network :=
  fun req =>
    match req_method req with
    | GET => Some (Response true 200 [] (Some record))
    | PUT => Some (Response true 200 (str "{}") (Some (JObj [])))
    end.

Definition profile_table : gmap jsstring jsstring :=
  {[ str "profile.a" := str "X" ]}.

Definition absent_or_empty (o : option jsstring) : Prop :=
  o = None \/ o = Some [].


(** A record with a card id and a headline, and no time to live. *)
Definition headline_cup_record : jsval :=
  card_record
    [("cardId", JStr (str "cup")); ("headline", JStr (str "Hi {{x}}"))]%string.

(** A record without a card id. *)
Definition headline_only_record : jsval :=
  card_record [("headline", JStr (str "Hi"))]%string.

(** A record whose image value holds a token of [brand_table]. *)
Definition image_record : jsval :=
  card_record
    [("cardId", JStr (str "cup"));
     ("image", JStr (str "/img/{{env.brand}}.png"))]%string.

(** A table with a value that is a single opening brace. *)
Definition brace_table : gmap jsstring jsstring :=
  {[ str "x" := str "{"; str "y" := str "Z" ]}.

(** ** Further definitions for the properties *)

(** A table none of whose keys starts with [profile.] or holds an opening
    brace. *)
Definition plain_keys (tbl : gmap jsstring jsstring) : Prop :=
  forall k v,
    tbl !! k = Some v ->
    ~ (str "profile." `prefix_of` k) /\ (LBRACE ∉ k).

(** What [main] ends with once the write is issued, given the answer of
    the environment: the rest of [putAemJson] and the final [return]. *)
Definition write_result (url : jsstring) (answer : option response)
  : result outcome :=
  match answer with
  | None => Throw (FetchError "request failed")
  | Some res =>
      if negb (res_ok res) then
        Throw (Error (str "AEM publish write failed: "
                      ++ N_to_string (res_status res)
                      ++ str " " ++ res_text res))
      else
        match res_json res with
        | Some _ =>
            Ok (Outcome 200
                  (BodyPublished (str "Card payload published") url))
        | None => Throw (FetchError "invalid json response body")
        end
  end.

(** An environment that answers every read with [record] and every write
    with [answer]. *)
Definition serve_with (record : jsval) (answer : option response)
  : network :=
  fun req =>
    match req_method req with
    | GET => Some (Response true 200 [] (Some record))
    | PUT => answer
    end.


(** The sample parameters without a table of static tokens. *)
Definition no_table_params : params :=
  Params (cfPath demo_params) (authorHost demo_params)
         (publishHost demo_params) (authorAccessToken demo_params)
         (publishAccessToken demo_params) None.

(** ** The scan of [replace], for any pattern and function *)

(** [scans r f s st out st']: replacing the matches of [r] in [s] by what
    [f] returns, from the state [st], yields [out] and the state [st'],
    no call of [f] throwing. *)
Inductive scans {St} (r : regex) (f : match_result -> M St jsstring)
  : jsstring -> St -> jsstring -> St -> Prop :=
| scans_nil st : scans r f [] st [] st
| scans_copy c s st out st' :
    match_at r (c :: s) = None ->
    scans r f s st out st' ->
    scans r f (c :: s) st (c :: out) st'
| scans_match s m st v st1 out st2 :
    match_at r s = Some m ->
    f m st = (Ok v, st1) ->
    scans r f (rest m) st1 out st2 ->
    scans r f s st (v ++ out) st2.

(** ** The renderer: [resolveProfileTokens]

    The function of the card component that resolves the profile tokens
    of a published text against the profile of the user.  Its pattern is
    a literal of its own, created at each call, so it keeps no state.

    A property read [acc[key]] is modelled where it finds an own property
    of a plain object.  Any other read (an inherited property, a property
    of a string, a number, an array or a built-in object) is answered by
    the parameter [builtin_get], and the conversion to a string of a
    value that is not a primitive by the parameter [display]: the
    properties hold for every such environment. *)

Definition DOT : N := 46.

(** [s.split('.')] *)
Fixpoint split_on (sep : N) (s : jsstring) : list jsstring :=
  match s with
  | [] => [[]]
  | c :: s' =>
      if c =? sep then [] :: split_on sep s'
      else
        match split_on sep s' with
        | seg :: segs => (c :: seg) :: segs
        | [] => [[c]]
        end
  end.

(** The own property [k] of an object, if it has one. *)
Fixpoint lookup_own (k : jsstring) (fields : list (jsstring * jsval))
  : option jsval :=
  match fields with
  | [] => None
  | (k', v) :: fields' =>
      if bool_decide (k' = k) then Some v else lookup_own k fields'
  end.

(** [/\{\{\s*profile\.([^}]+)\s*\}\}/g] *)
Definition PROFILE_PATH_REGEX : regex :=
  cat [Lit LBRACE; Lit LBRACE; StarC is_ws; lits (str "profile.");
       Group (PlusC not_rbrace); StarC is_ws; Lit RBRACE; Lit RBRACE].

Section Renderer.
(** Values that are not JSON data: built-in functions and objects. *)
Variable native : Type.

(** A value met on the way through the profile. *)
Definition pvalue : Type := jsval + native.

Variable builtin_get : pvalue -> jsstring -> pvalue.
Variable display : pvalue -> result jsstring.

Definition truthy (a : pvalue) : bool :=
  match a with
  | inl v => ToBoolean v
  | inr _ => true
  end.

(** [acc[key]] *)
Definition prop_get (acc : pvalue) (key : jsstring) : pvalue :=
  match acc with
  | inl (JObj fields) =>
      match lookup_own key fields with
      | Some v => inl v
      | None => builtin_get acc key
      end
  | _ => builtin_get acc key
  end.

(** [keys.reduce((acc, key) => (acc ? acc[key] : undefined), profile)] *)
Definition walk (keys : list jsstring) (profile : pvalue) : pvalue :=
  fold_left
    (fun acc key => if truthy acc then prop_get acc key else inl JUndefined)
    keys profile.

(** The function passed to [replace]: [(match, path) => { ... }], with
    the conversion of its result to a string. *)
Definition profile_replacer (profile : pvalue) (m : match_result)
  : M unit jsstring :=
  match group1 m with
  | None => throw (TypeError "Cannot read properties of undefined")
  | Some path =>
      let value := walk (split_on DOT path) profile in
      match value with
      | inl JUndefined | inl JNull => ret (matched m)
      | inl (JStr s) => ret s
      | inl (JNum n) => ret (Number_toString n)
      | inl (JBool true) => ret (str "true")
      | inl (JBool false) => ret (str "false")
      | _ => fun st => (display value, st)
      end
  end.

Definition resolveProfileTokens (text : jsval) (profile : pvalue)
  : result jsval :=
  if negb (ToBoolean text) then Ok text
  else
    match text with
    | JStr s =>
        match replace PROFILE_PATH_REGEX (profile_replacer profile) s tt with
        | (Ok out, _) => Ok (JStr out)
        | (Throw e, _) => Throw e
        end
    | _ => Throw (TypeError "text.replace is not a function")
    end.
End Renderer.

Arguments truthy {native} a.
Arguments prop_get {native} builtin_get acc key.
Arguments walk {native} builtin_get keys profile.
Arguments profile_replacer {native} builtin_get display profile m.
Arguments resolveProfileTokens {native} builtin_get display text profile.

(** The walk through own properties of plain objects only. *)
Fixpoint own_walk (v : jsval) (keys : list jsstring) : option jsval :=
  match keys with
  | [] => Some v
  | k :: keys' =>
      match v with
      | JObj fields =>
          match lookup_own k fields with
          | Some v' => own_walk v' keys'
          | None => None
          end
      | _ => None
      end
  end.

(** The text of a primitive value other than [null] and [undefined]. *)
Definition primitive_string (v : jsval) : option jsstring :=
  match v with
  | JStr s => Some s
  | JNum n => Some (Number_toString n)
  | JBool true => Some (str "true")
  | JBool false => Some (str "false")
  | _ => None
  end.

(** A profile token as it stands in a text: white space, [profile.] and a
    path between the braces. *)
Definition profile_token (w d : jsstring) : jsstring :=
  token (w ++ str "profile." ++ d).

(** A text in which no profile token stands. *)
Definition profile_token_free (t : jsstring) : Prop :=
  forall a w d b, t <> a ++ profile_token w d ++ b.

(** An environment without built-in properties, for the examples. *)
Definition no_builtin : (jsval + Empty_set) -> jsstring -> jsval + Empty_set :=
  fun _ _ => inl JUndefined.

Definition no_display : (jsval + Empty_set) -> result jsstring :=
  fun _ => Ok (str "[object Object]").

Definition ann_profile : jsval :=
  JObj [(str "name", JStr (str "Ann"));
        (str "address", JObj [(str "city", JStr (str "Oslo"))]);
        (str "nick", JNull)].

(** * Properties *)

(** Closes a decidable goal on concrete data by evaluation. *)
Ltac by_compute := apply (bool_decide_unpack _); vm_compute; exact I.

(** ** Examples *)

Example resolve_static :
  resolve_text demo_table (str "a{{x}}b") O = (Ok (str "aVb"), O).
Proof. vm_compute. reflexivity. Qed.

Example resolve_profile_first :
  resolve_text {[ str "profile.a" := str "X" ]} (str "{{ profile.a }}") O
  = (Ok (str "{{ profile.a }}"), 15%nat).
Proof. vm_compute. reflexivity. Qed.

Example number_examples :
  StringToNumber (str "3600") = num_of_Z 3600
  /\ StringToNumber (str " 1.50e3 ") = num_of_Z 1500
  /\ StringToNumber (str "0x1F") = num_of_Z 31
  /\ StringToNumber (str "abc") = NaN
  /\ StringToNumber (str "") = num_of_Z 0
  /\ StringToNumber (str "-.5") = Fin (-5) (-1)
  /\ StringToNumber (str ".") = NaN
  /\ StringToNumber (str "1e") = NaN
  /\ StringToNumber (str "-Infinity") = Infinity true
  /\ Number_toString (num_of_Z 86400) = str "86400"
  /\ Number_toString (Fin (-15) (-1)) = str "-1.5"
  /\ Number_toString (Fin 1 21) = str "1e+21"
  /\ Number_toString (Fin 1 20) = str "100000000000000000000"
  /\ Number_toString (Fin 1 (-6)) = str "0.000001"
  /\ Number_toString (Fin 12 (-8)) = str "1.2e-7"
  /\ ToString (JArr [JNum (Fin 1 0); JNull; JStr (str "a")]) = str "1,,a".
Proof. vm_compute. repeat split. Qed.

(** ** The matcher *)

Lemma star_inv {R} (p : N -> bool) (s : jsstring) (k : jsstring -> option R)
    (x : R) :
  star p s k = Some x ->
  exists c s', s = c ++ s' /\ Forall (fun a => p a = true) c /\ k s' = Some x.
Proof.
  induction s as [|a s IH]; simpl; intros H.
  - exists [], []. auto.
  - destruct (p a) eqn:Hp.
    + destruct (star p s k) as [r|] eqn:Hs.
      * destruct (IH H) as (c & s' & -> & Hc & Hk).
        exists (a :: c), s'. split; [done|]. split; [|done].
        by constructor.
      * exists [], (a :: s). auto.
    + exists [], (a :: s). auto.
Qed.

Lemma star_greedy {R} (p : N -> bool) (w s : jsstring)
    (k : jsstring -> option R) (x : R) :
  Forall (fun a => p a = true) w ->
  star p s k = Some x ->
  star p (w ++ s) k = Some x.
Proof.
  induction 1 as [|a w Ha _ IH]; simpl; intros Hs; [done|].
  by rewrite Ha, (IH Hs).
Qed.

Lemma star_backtrack {R} (p : N -> bool) (w : jsstring) (l : N)
    (s : jsstring) (k : jsstring -> option R) (x : R) :
  Forall (fun a => p a = true) w ->
  p l = true ->
  star p s k = None ->
  k (l :: s) = Some x ->
  star p (w ++ l :: s) k = Some x.
Proof.
  intros Hw Hl Hs Hk. apply star_greedy; [done|].
  simpl. by rewrite Hl, Hs.
Qed.

Lemma rmatch_inv {R} (r : regex) :
  forall (s : jsstring) cap (k : jsstring -> option jsstring -> option R) x,
    rmatch r s cap k = Some x ->
    exists s' cap', s' `suffix_of` s /\ k s' cap' = Some x.
Proof.
  induction r as [|c|p|p|r IH|r1 IH1 r2 IH2]; simpl; intros s cap k x H.
  - by exists s, cap.
  - destruct s as [|a s]; [done|]. destruct (a =? c); [|done].
    exists s, cap. split; [|done]. by apply suffix_cons_r.
  - apply star_inv in H as (c & s' & -> & _ & Hk).
    exists s', cap. split; [|done]. by apply suffix_app_r.
  - destruct s as [|a s]; [done|]. destruct (p a); [|done].
    apply star_inv in H as (c & s' & -> & _ & Hk).
    exists s', cap. split; [|done].
    apply suffix_cons_r. by apply suffix_app_r.
  - apply IH in H as (s' & cap' & Hs & Hk). eauto.
  - apply IH1 in H as (s1 & cap1 & Hs1 & H).
    apply IH2 in H as (s2 & cap2 & Hs2 & Hk).
    exists s2, cap2. split; [|done]. by etrans.
Qed.

Lemma take_length_suffix (pre s : jsstring) :
  take (length (pre ++ s) - length s) (pre ++ s) = pre.
Proof.
  rewrite length_app.
  replace (length pre + length s - length s)%nat with (length pre) by lia.
  by rewrite take_app_length.
Qed.

(** A match and what follows it make up the text. *)
Lemma match_at_split (r : regex) (s : jsstring) (m : match_result) :
  match_at r s = Some m -> s = matched m ++ rest m.
Proof.
  unfold match_at. intros H.
  apply rmatch_inv in H as (s' & cap' & [pre ->] & H).
  injection H as <-. simpl. by rewrite take_length_suffix.
Qed.

Lemma search_Some (r : regex) (s : jsstring) (i : nat) (m : match_result) :
  search r s = Some (i, m) ->
  match_at r (drop i s) = Some m
  /\ (forall j, (j < i)%nat -> match_at r (drop j s) = None)
  /\ (i <= length s)%nat.
Proof.
  revert i. induction s as [|a s IH]; intros i; simpl.
  - destruct (match_at r []) eqn:E; [|done].
    intros [= <- <-]. split; [done|]. split; [lia|done].
  - destruct (match_at r (a :: s)) eqn:E.
    + intros [= <- <-]. split; [done|]. split; [lia|simpl; lia].
    + destruct (search r s) as [[i' m']|] eqn:Es; [|done].
      intros [= <- <-]. destruct (IH _ eq_refl) as (Hm & Hlt & Hle).
      split; [done|]. split; [|simpl; lia].
      intros [|j] Hj; [done|]. simpl. apply Hlt. lia.
Qed.

Lemma search_None (r : regex) (s : jsstring) :
  search r s = None <-> forall j, match_at r (drop j s) = None.
Proof.
  induction s as [|a s IH]; simpl.
  - split.
    + destruct (match_at r []) eqn:E; [done|]. intros _ j. by rewrite drop_nil.
    + intros H. pose proof (H O) as H0. simpl in H0. by rewrite H0.
  - split.
    + destruct (match_at r (a :: s)) eqn:E; [done|].
      destruct (search r s) as [[i m]|] eqn:Es; [done|].
      intros _ [|j]; [done|]. simpl. by apply IH.
    + intros H. pose proof (H O) as H0. simpl in H0. rewrite H0.
      assert (search r s = None) as ->; [|done].
      apply IH. intros j. apply (H (S j)).
Qed.

Lemma search_None_drop (r : regex) (s : jsstring) (i : nat) :
  search r s = None -> search r (drop i s) = None.
Proof.
  rewrite !search_None. intros H j. rewrite drop_drop. apply H.
Qed.

(** A pattern that matches nowhere in [s] fails [test] whatever
    [lastIndex] is, and resets it. *)
Lemma RegExp_test_None (r : regex) (s : jsstring) (li : nat) :
  search r s = None -> RegExp_test r s li = (false, O).
Proof.
  intros H. unfold RegExp_test, RegExp_exec.
  destruct (length s <? li)%nat; [done|].
  by rewrite (search_None_drop _ _ li H).
Qed.

(** ** The token pattern *)

Lemma is_ws_not_rbrace c : is_ws c = true -> not_rbrace c = true.
Proof.
  intros H. unfold not_rbrace. destruct (N.eqb_spec c RBRACE) as [->|]; [|done].
  vm_compute in H. done.
Qed.


Lemma not_rbrace_RBRACE : not_rbrace RBRACE = false.
Proof. reflexivity. Qed.

Lemma Forall_ws_not_rbrace w :
  Forall (fun a => is_ws a = true) w -> Forall (fun a => not_rbrace a = true) w.
Proof.
  intros H. eapply Forall_impl; [exact H|]. intros c. apply is_ws_not_rbrace.
Qed.

Lemma token_app c r :
  token c ++ r = LBRACE :: LBRACE :: c ++ RBRACE :: RBRACE :: r.
Proof. unfold token. simpl. by rewrite <- app_assoc. Qed.

Lemma match_at_token_shape s m :
  match_at TOKEN_REGEX s = Some m ->
  exists c r, s = token c ++ r
              /\ c <> [] /\ Forall (fun a => not_rbrace a = true) c.
Proof.
  unfold match_at, TOKEN_REGEX. cbn [cat foldr rmatch].
  destruct s as [|a [|b x]]; [done|by destruct (a =? LBRACE)|].
  destruct (N.eqb_spec a LBRACE) as [->|]; [|done].
  destruct (N.eqb_spec b LBRACE) as [->|]; [|done].
  intros H. apply star_inv in H as (w & x1 & -> & Hw & H).
  destruct x1 as [|h x1]; [done|].
  destruct (not_rbrace h) eqn:Hh; [|done].
  apply star_inv in H as (c1 & x2 & -> & Hc1 & H).
  apply star_inv in H as (w2 & x3 & -> & Hw2 & H).
  destruct x3 as [|d [|e r]]; [done|by destruct (d =? RBRACE)|].
  destruct (N.eqb_spec d RBRACE) as [->|]; [|done].
  destruct (N.eqb_spec e RBRACE) as [->|]; [|done].
  exists (w ++ h :: c1 ++ w2), r. split.
  { rewrite token_app. repeat (rewrite <- app_assoc; simpl). done. }
  split; [by destruct w|].
  apply Forall_app. split; [by apply Forall_ws_not_rbrace|].
  constructor; [done|]. apply Forall_app. split; [done|].
  by apply Forall_ws_not_rbrace.
Qed.

Lemma span_spec p s a b :
  span p s = (a, b) ->
  s = a ++ b /\ Forall (fun c => p c = true) a
  /\ match b with [] => True | h :: _ => p h = false end.
Proof.
  revert a b. induction s as [|c s IH]; simpl; intros a b.
  - intros [= <- <-]. auto.
  - destruct (p c) eqn:Hp.
    + destruct (span p s) as [a' b'] eqn:E. intros [= <- <-].
      destruct (IH _ _ eq_refl) as (-> & Ha & Hb). auto.
    + intros [= <- <-]. auto.
Qed.

Lemma span_stop p c h r :
  Forall (fun a => p a = true) c -> p h = false ->
  span p (c ++ h :: r) = (c, h :: r).
Proof.
  induction 1 as [|a c Ha _ IH]; simpl; intros Hh.
  - by rewrite Hh.
  - by rewrite Ha, IH.
Qed.

Lemma drop_while_all p w :
  Forall (fun a => p a = true) w -> drop_while p w = [].
Proof. induction 1 as [|a w Ha _ IH]; simpl; [done|]. by rewrite Ha. Qed.

Lemma drop_while_stop p w h t :
  Forall (fun a => p a = true) w -> p h = false ->
  drop_while p (w ++ h :: t) = h :: t.
Proof.
  induction 1 as [|a w Ha _ IH]; simpl; intros Hh.
  - by rewrite Hh.
  - rewrite Ha. by apply IH.
Qed.

Lemma rmatch_token_head {R} x cap
    (K : jsstring -> option jsstring -> option R) :
  rmatch TOKEN_REGEX (LBRACE :: LBRACE :: x) cap K
  = star is_ws x (fun x1 => rmatch TOKEN_TAIL x1 cap K).
Proof. reflexivity. Qed.

Lemma rmatch_token_tail {R} c r cap
    (K : jsstring -> option jsstring -> option R) v :
  c <> [] -> Forall (fun a => not_rbrace a = true) c ->
  K r (Some c) = Some v ->
  rmatch TOKEN_TAIL (c ++ RBRACE :: RBRACE :: r) cap K = Some v.
Proof.
  intros Hne Hc HK. destruct c as [|h c]; [done|].
  apply Forall_cons in Hc as [Hh Hc].
  unfold TOKEN_TAIL. cbn [cat foldr rmatch app]. rewrite Hh.
  apply star_greedy; [done|]. cbn [star].
  rewrite not_rbrace_RBRACE. change (is_ws RBRACE) with false. cbv iota.
  rewrite !N.eqb_refl.
  change (h :: c ++ RBRACE :: RBRACE :: r)
    with ((h :: c) ++ RBRACE :: RBRACE :: r).
  by rewrite take_length_suffix.
Qed.

Lemma capture_stop w h c :
  Forall (fun a => is_ws a = true) w -> is_ws h = false ->
  capture (w ++ h :: c) = h :: c.
Proof. intros Hw Hh. unfold capture. by rewrite drop_while_stop. Qed.

Lemma capture_blank w l :
  Forall (fun a => is_ws a = true) w -> is_ws l = true ->
  capture (w ++ [l]) = [l].
Proof.
  intros Hw Hl. unfold capture. rewrite drop_while_all.
  - rewrite length_app. simpl.
    replace (length w + 1 - 1)%nat with (length w) by lia.
    by rewrite drop_app_length.
  - apply Forall_app. split; [done|]. by constructor.
Qed.

Lemma rmatch_token_complete {R} c r cap
    (K : jsstring -> option jsstring -> option R) v :
  c <> [] -> Forall (fun a => not_rbrace a = true) c ->
  K r (Some (capture c)) = Some v ->
  rmatch TOKEN_REGEX (token c ++ r) cap K = Some v.
Proof.
  intros Hne Hc HK. rewrite token_app, rmatch_token_head.
  destruct (span is_ws c) as [w c'] eqn:Hspan.
  apply span_spec in Hspan as (-> & Hw & Hstop).
  destruct c' as [|h c'].
  - rewrite app_nil_r in *. clear Hstop.
    destruct w as [|l w _] using rev_ind; [done|].
    apply Forall_app in Hw as [Hw Hl]. apply Forall_cons in Hl as [Hl _].
    rewrite <- app_assoc. cbn [app]. apply star_backtrack; [done..| |].
    + cbn [star]. change (is_ws RBRACE) with false. cbv iota.
      unfold TOKEN_TAIL. cbn [cat foldr rmatch].
      by rewrite not_rbrace_RBRACE.
    + apply (rmatch_token_tail [l]); [done| |].
      * constructor; [by apply is_ws_not_rbrace|done].
      * by rewrite capture_blank in HK.
  - rewrite <- app_assoc. apply star_greedy; [done|].
    cbn [app star]. rewrite Hstop.
    apply (rmatch_token_tail (h :: c')); [done| |].
    + by apply Forall_app in Hc as [_ Hc].
    + by rewrite capture_stop in HK.
Qed.

Lemma match_at_token_complete c r :
  c <> [] -> Forall (fun a => not_rbrace a = true) c ->
  match_at TOKEN_REGEX (token c ++ r)
  = Some (MatchResult (token c) (Some (capture c)) r).
Proof.
  intros Hne Hc. unfold match_at. apply rmatch_token_complete; [done..|].
  by rewrite take_length_suffix.
Qed.

Lemma token_match_complete c r :
  c <> [] -> Forall (fun a => not_rbrace a = true) c ->
  token_match (token c ++ r)
  = Some (MatchResult (token c) (Some (capture c)) r).
Proof.
  intros Hne Hc. rewrite token_app. unfold token_match.
  rewrite !N.eqb_refl. cbn [andb].
  rewrite span_stop; [|done|reflexivity].
  destruct c; [done|]. by rewrite !N.eqb_refl.
Qed.

Lemma token_match_shape s m :
  token_match s = Some m ->
  exists c r, s = token c ++ r
              /\ c <> [] /\ Forall (fun a => not_rbrace a = true) c.
Proof.
  unfold token_match. destruct s as [|a [|b x]]; [done..|].
  destruct (N.eqb_spec a LBRACE) as [->|]; [|done].
  destruct (N.eqb_spec b LBRACE) as [->|]; [|done]. simpl.
  destruct (span not_rbrace x) as [c y] eqn:Hspan.
  apply span_spec in Hspan as (-> & Hc & _).
  destruct c as [|h c]; [done|]. destruct y as [|d [|e r]]; [done..|].
  destruct (N.eqb_spec d RBRACE) as [->|]; [|done].
  destruct (N.eqb_spec e RBRACE) as [->|]; [|done]. simpl.
  intros _. exists (h :: c), r. split; [|done]. symmetry. apply token_app.
Qed.

(** The matcher run on the token pattern finds exactly the tokens. *)
Lemma match_at_token s : match_at TOKEN_REGEX s = token_match s.
Proof.
  destruct (match_at TOKEN_REGEX s) as [m|] eqn:E.
  - destruct (match_at_token_shape _ _ E) as (c & r & -> & Hne & Hc).
    rewrite match_at_token_complete in E by done.
    by rewrite token_match_complete.
  - destruct (token_match s) as [m|] eqn:E'; [|done].
    apply token_match_shape in E' as (c & r & -> & Hne & Hc).
    by rewrite match_at_token_complete in E.
Qed.

Lemma match_at_token_inv s m :
  match_at TOKEN_REGEX s = Some m ->
  exists c r, c <> [] /\ Forall (fun a => not_rbrace a = true) c
              /\ s = token c ++ r
              /\ m = MatchResult (token c) (Some (capture c)) r.
Proof.
  intros E. destruct (match_at_token_shape _ _ E) as (c & r & -> & Hne & Hc).
  rewrite match_at_token_complete in E by done. injection E as <-.
  by exists c, r.
Qed.

Lemma drop_while_nil_inv p s :
  drop_while p s = [] -> Forall (fun a => p a = true) s.
Proof.
  induction s as [|a s IH]; simpl; [done|].
  destruct (p a) eqn:Hp; [|done]. intros H. constructor; auto.
Qed.

Lemma drop_while_idem p s : drop_while p (drop_while p s) = drop_while p s.
Proof.
  induction s as [|a s IH]; simpl; [done|].
  destruct (p a) eqn:Hp; [done|]. simpl. by rewrite Hp.
Qed.

Lemma trim_blank s : Forall (fun a => is_ws a = true) s -> trim s = [].
Proof.
  intros H. unfold trim. rewrite (drop_while_all _ s) by done. reflexivity.
Qed.

(** The callback trims the capture, which comes to trimming the text
    between the braces. *)
Lemma trim_capture c : trim (capture c) = trim c.
Proof.
  unfold capture. destruct (drop_while is_ws c) as [|h c'] eqn:E.
  - apply drop_while_nil_inv in E. rewrite (trim_blank c) by done.
    apply trim_blank. rewrite <- (take_drop (length c - 1) c) in E.
    by apply Forall_app in E as [_ E].
  - rewrite <- E. unfold trim. by rewrite drop_while_idem.
Qed.

(** ** The scan *)

Section Scan.
Variable tbl : gmap jsstring jsstring.

Lemma replacer_token c r li :
  replacer tbl (MatchResult (token c) (Some (capture c)) r) li
  = (Ok (if (RegExp_test PROFILE_TOKEN_REGEX (token c) li).1 then token c
         else default (token c) (tbl !! trim c)),
     (RegExp_test PROFILE_TOKEN_REGEX (token c) li).2).
Proof.
  unfold replacer. cbn [group1 matched]. rewrite trim_capture.
  destruct (RegExp_test PROFILE_TOKEN_REGEX (token c) li) as [[] li'];
    [done|]. cbn [fst snd]. by destruct (tbl !! trim c).
Qed.

Lemma resolves_skip i : forall s li out li',
  (forall j, (j < i)%nat -> match_at TOKEN_REGEX (drop j s) = None) ->
  (i <= length s)%nat ->
  resolves tbl (drop i s) li out li' ->
  resolves tbl s li (take i s ++ out) li'.
Proof.
  induction i as [|i IH]; intros s li out li' Hlt Hle H; [done|].
  destruct s as [|a s]; [simpl in Hle; lia|]. simpl in *.
  apply resolves_copy.
  - apply (Hlt O). lia.
  - apply IH; [|lia|done]. intros j Hj. apply (Hlt (S j)). lia.
Qed.

Lemma resolves_nomatch s li :
  (forall j, match_at TOKEN_REGEX (drop j s) = None) ->
  resolves tbl s li s li.
Proof.
  induction s as [|a s IH]; intros H; [constructor|].
  apply resolves_copy; [apply (H O)|]. apply IH. intros j. apply (H (S j)).
Qed.

Lemma replace_loop_resolves n : forall s li,
  (length s < n)%nat ->
  exists out li',
    replace_loop n TOKEN_REGEX (replacer tbl) s li = (Ok out, li')
    /\ resolves tbl s li out li'.
Proof.
  induction n as [|n IH]; intros s li Hn; [lia|]. cbn [replace_loop].
  destruct (search TOKEN_REGEX s) as [[i m]|] eqn:Es.
  - apply search_Some in Es as (Hm & Hlt & Hle).
    destruct (match_at_token_inv _ _ Hm) as (c & r & Hne & Hc & Hs & ->).
    assert (length r < n)%nat as Hr.
    { apply (f_equal length) in Hs.
      rewrite length_drop, length_app in Hs. unfold token in Hs.
      simpl in Hs. lia. }
    unfold bind at 1. rewrite replacer_token.
    destruct (IH r (RegExp_test PROFILE_TOKEN_REGEX (token c) li).2 Hr)
      as (out & li' & Hloop & Hres).
    unfold bind, ret. cbn [matched rest]. unfold token at 1. cbv iota.
    rewrite Hloop. eexists _, _. split; [reflexivity|].
    apply resolves_skip; [done..|].
    eapply resolves_token; [exact Hm|apply replacer_token|done].
  - exists s, li. split; [done|].
    apply resolves_nomatch. by apply search_None.
Qed.

Lemma resolves_det s li out1 li1 :
  resolves tbl s li out1 li1 ->
  forall out2 li2, resolves tbl s li out2 li2 -> out1 = out2 /\ li1 = li2.
Proof.
  assert (match_at TOKEN_REGEX [] = None) as Hnil by reflexivity.
  induction 1 as [li|c s li out li' Hm _ IH|s m li v li1 out li2 Hm Hv _ IH];
    intros out2 li2' H2; inversion H2; subst; try congruence.
  - done.
  - destruct (IH _ _ ltac:(eassumption)) as [-> ->]. done.
  - simplify_eq.
    match goal with
    | H : replacer tbl m li = _ |- _ => rewrite Hv in H; simplify_eq
    end.
    destruct (IH _ _ ltac:(eassumption)) as [-> ->]. done.
Qed.

(** The resolver never throws on a string, and its result is the one the
    scan relation describes. *)
Lemma resolve_text_total s li :
  exists out li',
    resolve_text tbl s li = (Ok out, li') /\ resolves tbl s li out li'.
Proof. apply replace_loop_resolves. lia. Qed.

Lemma resolve_text_resolves s li out li' :
  resolve_text tbl s li = (Ok out, li') <-> resolves tbl s li out li'.
Proof.
  destruct (resolve_text_total s li) as (out0 & li0 & E & H). split.
  - intros E'. rewrite E in E'. by simplify_eq.
  - intros H'. destruct (resolves_det _ _ _ _ H _ _ H') as [-> ->]. done.
Qed.
End Scan.

(** ** The resolver on values *)

Lemma resolve_text_nil tbl li : resolve_text tbl [] li = (Ok [], li).
Proof. reflexivity. Qed.

Lemma resolveStaticTokens_str tbl s li :
  resolveStaticTokens (JStr s) tbl li
  = match resolve_text tbl s li with
    | (Ok out, li') => (Ok (JStr out), li')
    | (Throw e, li') => (Throw e, li')
    end.
Proof. destruct s; reflexivity. Qed.

Lemma resolveStaticTokens_falsy tbl v li :
  ToBoolean v = false -> resolveStaticTokens v tbl li = (Ok v, li).
Proof. intros H. unfold resolveStaticTokens. by rewrite H. Qed.

Lemma token_free_search t : token_free t -> search TOKEN_REGEX t = None.
Proof.
  intros Hfree. destruct (search TOKEN_REGEX t) as [[i m]|] eqn:E; [|done].
  apply search_Some in E as (Hm & _ & _).
  apply match_at_token_shape in Hm as (c & r & Hs & _ & _).
  destruct (Hfree (take i t) c r).
  by rewrite <- token_app, <- Hs, take_drop.
Qed.

Lemma resolve_text_no_match tbl t li :
  search TOKEN_REGEX t = None -> resolve_text tbl t li = (Ok t, li).
Proof.
  intros H. unfold resolve_text, replace. cbn [replace_loop]. by rewrite H.
Qed.

(** C6. On a text without any [{{...}}] sequence the resolver is the
    identity, whatever the table and the state of the profile pattern;
    an absent ([undefined], [null]) or empty text is returned as it is,
    without an error. *)
Theorem resolve_token_free_identity (tbl : gmap jsstring jsstring) (li : nat) :
  (forall t, token_free t ->
             resolveStaticTokens (JStr t) tbl li = (Ok (JStr t), li))
  /\ resolveStaticTokens JUndefined tbl li = (Ok JUndefined, li)
  /\ resolveStaticTokens JNull tbl li = (Ok JNull, li)
  /\ resolveStaticTokens (JStr []) tbl li = (Ok (JStr []), li).
Proof.
  split; [|done]. intros t Hfree.
  rewrite resolveStaticTokens_str, resolve_text_no_match; [done|].
  by apply token_free_search.
Qed.

Lemma resolve_token_free_identity_witness :
  token_free (str "a{b}")
  /\ resolveStaticTokens (JStr (str "a{b}")) demo_table 5%nat
     = (Ok (JStr (str "a{b}")), 5%nat).
Proof.
  assert (token_free (str "a{b}")) as H.
  { intros a c b E. do 5 (destruct a as [|? a]; [discriminate E|]).
    discriminate E. }
  split; [exact H|].
  exact (proj1 (resolve_token_free_identity demo_table 5%nat) _ H).
Defined.

(** ** Tokens in the scan *)

Lemma match_at_token_head h x m :
  match_at TOKEN_REGEX (h :: x) = Some m -> h = LBRACE.
Proof.
  intros E. apply match_at_token_shape in E as (c & r & Hs & _).
  rewrite token_app in Hs. by injection Hs.
Qed.

Lemma match_at_token_not_lbrace h x :
  h <> LBRACE -> match_at TOKEN_REGEX (h :: x) = None.
Proof.
  intros Hh. destruct (match_at TOKEN_REGEX (h :: x)) eqn:E; [|done].
  by apply match_at_token_head in E.
Qed.

Section ScanFacts.
Variable tbl : gmap jsstring jsstring.

(** Text without an opening brace is copied. *)
Lemma resolves_prefix pre s li out li' :
  LBRACE ∉ pre ->
  resolves tbl s li out li' ->
  resolves tbl (pre ++ s) li (pre ++ out) li'.
Proof.
  induction pre as [|h pre IH]; intros Hpre H; [done|].
  apply not_elem_of_cons in Hpre as [Hh Hpre]. simpl.
  apply resolves_copy; [|by apply IH].
  apply match_at_token_not_lbrace. congruence.
Qed.

(** A token whose name is not a key of the table is copied, whatever
    [test] answers. *)
Lemma replacer_unknown c r li :
  tbl !! trim c = None ->
  replacer tbl (MatchResult (token c) (Some (capture c)) r) li
  = (Ok (token c), (RegExp_test PROFILE_TOKEN_REGEX (token c) li).2).
Proof.
  intros H. rewrite replacer_token, H. simpl.
  by destruct (RegExp_test PROFILE_TOKEN_REGEX (token c) li).1.
Qed.

Lemma resolves_unknown c s li out li' :
  c <> [] -> Forall (fun a => not_rbrace a = true) c ->
  tbl !! trim c = None ->
  resolves tbl s (RegExp_test PROFILE_TOKEN_REGEX (token c) li).2 out li' ->
  resolves tbl (token c ++ s) li (token c ++ out) li'.
Proof.
  intros Hne Hc Hk H. eapply resolves_token.
  - by apply match_at_token_complete.
  - by apply replacer_unknown.
  - done.
Qed.
End ScanFacts.

Lemma not_rbrace_Forall c :
  RBRACE ∉ c -> Forall (fun a => not_rbrace a = true) c.
Proof.
  intros H. apply Forall_forall. intros a Ha. unfold not_rbrace.
  destruct (N.eqb_spec a RBRACE) as [->|]; done.
Qed.



(** ** Resolving twice *)

Lemma lits_cons a l : lits (a :: l) = Seq (Lit a) (lits l).
Proof. reflexivity. Qed.

Lemma rmatch_lits_inv {R} l : forall s cap
    (k : jsstring -> option jsstring -> option R) x,
  rmatch (lits l) s cap k = Some x ->
  exists s', s = l ++ s' /\ k s' cap = Some x.
Proof.
  induction l as [|a l IH]; intros s cap k x.
  - intros H. by exists s.
  - rewrite lits_cons. cbn [rmatch].
    destruct s as [|b s]; [done|].
    destruct (N.eqb_spec b a) as [->|]; [|done].
    intros H. apply IH in H as (s' & -> & Hk). by exists s'.
Qed.

Lemma match_at_profile_shape u m :
  match_at PROFILE_TOKEN_REGEX u = Some m ->
  exists w d r,
    u = LBRACE :: LBRACE :: w ++ str "profile." ++ d ++ RBRACE :: RBRACE :: r
    /\ Forall (fun a => is_ws a = true) w
    /\ d <> [] /\ Forall (fun a => not_rbrace a = true) d.
Proof.
  unfold match_at, PROFILE_TOKEN_REGEX. cbn [cat foldr rmatch].
  destruct u as [|a [|b x]]; [done|by destruct (a =? LBRACE)|].
  destruct (N.eqb_spec a LBRACE) as [->|]; [|done].
  destruct (N.eqb_spec b LBRACE) as [->|]; [|done].
  intros H. apply star_inv in H as (w & x1 & -> & Hw & H).
  apply rmatch_lits_inv in H as (x2 & -> & H). cbn [rmatch] in H.
  destruct x2 as [|h x2]; [done|].
  destruct (not_rbrace h) eqn:Hh; [|done].
  apply star_inv in H as (d & x3 & -> & Hd & H).
  destruct x3 as [|e [|f r]]; [done|by destruct (e =? RBRACE)|].
  destruct (N.eqb_spec e RBRACE) as [->|]; [|done].
  destruct (N.eqb_spec f RBRACE) as [->|]; [|done].
  exists w, (h :: d), r. split; [done|]. split; [done|]. split; [done|].
  by constructor.
Qed.

(** Two runs without a closing brace that are each followed by one are the
    same run. *)
Lemma not_rbrace_run_unique c1 c2 r1 r2 :
  Forall (fun a => not_rbrace a = true) c1 ->
  Forall (fun a => not_rbrace a = true) c2 ->
  c1 ++ RBRACE :: r1 = c2 ++ RBRACE :: r2 ->
  c1 = c2 /\ r1 = r2.
Proof.
  intros H1. revert c2. induction H1 as [|a c1 Ha _ IH]; intros c2 H2 E.
  - destruct c2 as [|b c2]; [by simplify_eq|].
    apply Forall_cons in H2 as [Hb _]. by simplify_eq/=.
  - destruct c2 as [|b c2]; [by simplify_eq/=|].
    apply Forall_cons in H2 as [_ H2]. simplify_eq/=.
    destruct (IH _ H2 ltac:(eassumption)) as [-> ->]. done.
Qed.

Lemma elem_of_drop_while p x s :
  x ∈ s -> p x = false -> x ∈ drop_while p s.
Proof.
  induction s as [|a s IH]; simpl; [done|].
  intros [->|Hx]%elem_of_cons Hp.
  - rewrite Hp. by left.
  - destruct (p a); [by apply IH|]. by right.
Qed.

Lemma elem_of_trim x s : x ∈ s -> is_ws x = false -> x ∈ trim s.
Proof.
  intros Hx Hws. unfold trim. apply elem_of_reverse.
  apply elem_of_drop_while; [|done]. apply elem_of_reverse.
  by apply elem_of_drop_while.
Qed.

Lemma drop_while_app_keep p a h b :
  p h = false -> drop_while p (a ++ h :: b) = drop_while p a ++ h :: b.
Proof.
  intros Hh. induction a as [|x a IH]; simpl; [by rewrite Hh|].
  by destruct (p x).
Qed.

(** Trimming keeps a text without white space that follows the leading
    white space. *)
Lemma trim_prefix w P d :
  Forall (fun a => is_ws a = true) w ->
  P <> [] -> Forall (fun a => is_ws a = false) P ->
  P `prefix_of` trim (w ++ P ++ d).
Proof.
  intros Hw Hne HP. unfold trim.
  destruct P as [|h P]; [done|]. pose proof HP as HP'.
  apply Forall_cons in HP' as [Hh _].
  simpl. rewrite drop_while_stop by done.
  change (h :: P ++ d) with ((h :: P) ++ d). rewrite reverse_app.
  destruct (reverse (h :: P)) as [|h2 t2] eqn:E.
  { apply (f_equal length) in E. rewrite length_reverse in E. done. }
  assert (is_ws h2 = false) as Hh2.
  { apply (proj1 (Forall_forall _ _) HP).
    apply elem_of_reverse. rewrite E. by left. }
  rewrite drop_while_app_keep by done. rewrite reverse_app, <- E.
  rewrite reverse_involutive. by apply prefix_app_r.
Qed.

(** When [test] accepts a token, its trimmed name starts with [profile.]
    or holds an opening brace: the pattern is not anchored, so it also
    finds [{{profile.] further inside the token. *)
Lemma profile_test_true c li :
  Forall (fun a => not_rbrace a = true) c ->
  (RegExp_test PROFILE_TOKEN_REGEX (token c) li).1 = true ->
  str "profile." `prefix_of` trim c \/ LBRACE ∈ trim c.
Proof.
  intros Hc. unfold RegExp_test, RegExp_exec.
  destruct (length (token c) <? li)%nat; [done|].
  destruct (search PROFILE_TOKEN_REGEX (drop li (token c)))
    as [[i m]|] eqn:E; [|done].
  intros _. apply search_Some in E as (Hm & _ & _). rewrite drop_drop in Hm.
  apply match_at_profile_shape in Hm as (w & d & r & Hu & Hw & Hd & Hdn).
  unfold token in Hu. destruct (li + i)%nat as [|[|j]]; cbn [drop] in Hu.
  - left. injection Hu as Hu.
    destruct (not_rbrace_run_unique c (w ++ str "profile." ++ d)
                [RBRACE] (RBRACE :: r)) as [-> _].
    + done.
    + rewrite !Forall_app. split; [by apply Forall_ws_not_rbrace|].
      split; [by_compute|done].
    + by rewrite <- !app_assoc.
    + apply trim_prefix; [done|done|by_compute].
  - right. apply elem_of_trim; [|reflexivity].
    destruct c as [|h c]; [done|]. injection Hu as -> _. by left.
  - right. apply elem_of_trim; [|reflexivity].
    assert (LBRACE ∈ c ++ [RBRACE; RBRACE]) as Hin.
    { rewrite <- (take_drop j (c ++ _)), Hu. apply elem_of_app. right.
      by left. }
    apply elem_of_app in Hin as [Hin|Hin]; [done|].
    apply (bool_decide_pack _) in Hin. by vm_compute in Hin.
Qed.

Section Idempotence.
Variable tbl : gmap jsstring jsstring.
Hypothesis Hplain : plain_table tbl.

(** What [replacer] returns for a token: the value of its name in the
    table, or the token itself, and then its name is not a key. *)
Lemma replacer_plain c r li v li1 :
  Forall (fun a => not_rbrace a = true) c ->
  replacer tbl (MatchResult (token c) (Some (capture c)) r) li
  = (Ok v, li1) ->
  tbl !! trim c = Some v \/ (v = token c /\ tbl !! trim c = None).
Proof.
  intros Hc. rewrite replacer_token. intros [= <- <-].
  destruct (RegExp_test PROFILE_TOKEN_REGEX (token c) li).1 eqn:Ht.
  - right. split; [done|].
    destruct (tbl !! trim c) as [v|] eqn:Hk; [|done].
    destruct (Hplain _ _ Hk) as (_ & _ & _ & Hpre & Hlb).
    by destruct (profile_test_true _ _ Hc Ht).
  - destruct (tbl !! trim c) as [v|] eqn:Hk; [by left|by right].
Qed.

(** An output that starts with a closing brace comes from a text that
    starts with it. *)
Lemma resolves_rbrace_inv s li out li' :
  resolves tbl s li (RBRACE :: out) li' ->
  exists s', s = RBRACE :: s' /\ resolves tbl s' li out li'.
Proof.
  inversion 1 as [|c s' ? ? ? Hm Hres|? m ? v li1 out' ? Hm Hv Hres]; subst.
  - by exists s'.
  - apply match_at_token_inv in Hm as (c & r & Hne & Hc & -> & ->).
    apply replacer_plain in Hv as [Hk|[-> _]]; [|done|done].
    destruct (Hplain _ _ Hk) as (Hv & _ & Hrb & _).
    destruct v as [|h v]; [done|]. simplify_eq/=.
    destruct Hrb. by left.
Qed.

Lemma match_at_token_closes x :
  closes x -> is_Some (match_at TOKEN_REGEX (LBRACE :: LBRACE :: x)).
Proof.
  intros (c & r & Hne & Hc & ->). rewrite <- token_app.
  by rewrite match_at_token_complete.
Qed.

Lemma resolves_closes s li out li' :
  resolves tbl s li out li' -> closes out -> closes s.
Proof.
  induction 1 as [li|a s li out li' Hm Hres IH|s m li v li1 out li2 Hm Hv _ _].
  - intros (c & r & _ & _ & E). by destruct c.
  - intros (c & r & Hne & Hc & E).
    destruct c as [|h c]; [done|]. injection E as <- ->.
    apply Forall_cons in Hc as [Hh Hc]. destruct c as [|h' c].
    + apply resolves_rbrace_inv in Hres as (s1 & -> & Hres).
      apply resolves_rbrace_inv in Hres as (s2 & -> & _).
      exists [a], s2. split; [done|]. split; [by constructor|done].
    + destruct IH as (c2 & r2 & Hne2 & Hc2 & ->).
      { exists (h' :: c), r. done. }
      exists (a :: c2), r2. split; [done|]. split; [by constructor|done].
  - intros _.
    apply match_at_token_inv in Hm as (c & r & Hne & Hc & -> & _).
    exists (LBRACE :: LBRACE :: c), r. split; [done|].
    split; [by repeat constructor|]. by rewrite token_app.
Qed.

(** A character at which no token starts in the text starts none in the
    output either. *)
Lemma resolves_no_new_token a s li out li' :
  match_at TOKEN_REGEX (a :: s) = None ->
  resolves tbl s li out li' ->
  match_at TOKEN_REGEX (a :: out) = None.
Proof.
  intros Hno Hres.
  destruct (match_at TOKEN_REGEX (a :: out)) as [m|] eqn:E; [|done].
  exfalso. apply match_at_token_shape in E as (c & r & E & Hne & Hc).
  rewrite token_app in E. injection E as -> ->.
  inversion Hres as [|b s' ? ? ? Hm Hres'|? m' ? v li1 out' ? Hm Hv Hres'];
    subst.
  - assert (closes s') as Hcl.
    { eapply resolves_closes; [exact Hres'|]. by exists c, r. }
    apply match_at_token_closes in Hcl as [? Hcl]. congruence.
  - apply match_at_token_inv in Hm as (c' & r' & Hne' & Hc' & -> & _).
    assert (closes (LBRACE :: c' ++ RBRACE :: RBRACE :: r')) as Hcl.
    { exists (LBRACE :: c'), r'. split; [done|].
      split; [by constructor|done]. }
    apply match_at_token_closes in Hcl as [? Hcl].
    rewrite token_app in Hno. congruence.
Qed.

(** The output of the resolver resolves to itself, whatever the state of
    the profile pattern. *)
Lemma resolves_idempotent s li out li' :
  resolves tbl s li out li' ->
  forall l1, exists l2, resolves tbl out l1 out l2.
Proof.
  induction 1 as [li|a s li out li' Hm Hres IH|s m li v li1 out li2 Hm Hv _ IH];
    intros l1.
  - exists l1. constructor.
  - destruct (IH l1) as [l2 H]. exists l2.
    apply resolves_copy; [|done]. by eapply resolves_no_new_token.
  - apply match_at_token_inv in Hm as (c & r & Hne & Hc & -> & ->).
    apply replacer_plain in Hv as [Hk|[-> Hk]]; [| |done].
    + destruct (IH l1) as [l2 H]. exists l2.
      apply resolves_prefix; [|done].
      by destruct (Hplain _ _ Hk) as (_ & ? & _).
    + destruct (IH (RegExp_test PROFILE_TOKEN_REGEX (token c) l1).2)
        as [l2 H].
      exists l2. by apply resolves_unknown.
Qed.
End Idempotence.

(** C3, amended. With a table whose values are non-empty and hold no
    brace, and whose keys neither start with [profile.] nor hold an
    opening brace, resolving the output of the resolver again gives the
    same output, whatever happened to the profile pattern in between. *)
Theorem resolve_idempotent (tbl : gmap jsstring jsstring) (t : jsstring)
    (li li' : nat) :
  plain_table tbl ->
  exists out li1 li2,
    resolveStaticTokens (JStr t) tbl li = (Ok (JStr out), li1)
    /\ resolveStaticTokens (JStr out) tbl li' = (Ok (JStr out), li2).
Proof.
  intros Hplain.
  destruct (resolve_text_total tbl t li) as (out & li1 & E & H).
  destruct (resolves_idempotent tbl Hplain _ _ _ _ H li') as [li2 H2].
  apply resolve_text_resolves in H2.
  exists out, li1, li2. rewrite !resolveStaticTokens_str. by rewrite E, H2.
Qed.

(** ** Profile tokens *)

Lemma rmatch_lits {R} l s cap (k : jsstring -> option jsstring -> option R) :
  rmatch (lits l) (l ++ s) cap k = k s cap.
Proof.
  induction l as [|a l IH]; [done|].
  rewrite lits_cons. cbn [rmatch app]. by rewrite N.eqb_refl.
Qed.

Lemma star_stop {R} p h s (k : jsstring -> option R) :
  p h = false -> star p (h :: s) k = k (h :: s).
Proof. intros H. cbn [star]. by rewrite H. Qed.

(** The profile pattern matches a token whose name, behind white space,
    is [profile.] and at least one more character. *)
Lemma match_at_profile_complete w d r :
  Forall (fun a => is_ws a = true) w ->
  d <> [] -> Forall (fun a => not_rbrace a = true) d ->
  match_at PROFILE_TOKEN_REGEX (token (w ++ str "profile." ++ d) ++ r)
  = Some (MatchResult (token (w ++ str "profile." ++ d)) None r).
Proof.
  intros Hw Hne Hd. unfold match_at.
  set (s := token _ ++ r) at 2 3.
  assert (take (length s - length r) s = token (w ++ str "profile." ++ d))
    as Htake by apply take_length_suffix.
  clearbody s. rewrite token_app.
  unfold PROFILE_TOKEN_REGEX. cbn [cat foldr rmatch].
  rewrite !N.eqb_refl. rewrite <- !app_assoc.
  apply star_greedy; [done|].
  change (str "profile.") with (112 :: str "rofile.") at 1.
  cbn [app]. rewrite star_stop by reflexivity.
  change (112 :: str "rofile." ++ ?x) with (str "profile." ++ x).
  rewrite rmatch_lits. cbn [rmatch].
  destruct d as [|h d]; [done|]. apply Forall_cons in Hd as [Hh Hd].
  cbn [app]. rewrite Hh. apply star_greedy; [done|].
  rewrite star_stop by reflexivity. rewrite !N.eqb_refl. by rewrite Htake.
Qed.

(** With [lastIndex] at 0, [test] accepts such a token and leaves
    [lastIndex] at its end. *)
Lemma profile_test_fresh w d :
  Forall (fun a => is_ws a = true) w ->
  d <> [] -> Forall (fun a => not_rbrace a = true) d ->
  RegExp_test PROFILE_TOKEN_REGEX (token (w ++ str "profile." ++ d)) O
  = (true, length (token (w ++ str "profile." ++ d))).
Proof.
  intros Hw Hne Hd. unfold RegExp_test, RegExp_exec. cbn [Nat.ltb Nat.leb drop].
  pose proof (match_at_profile_complete w d [] Hw Hne Hd) as Hm.
  rewrite app_nil_r in Hm.
  destruct (token (w ++ str "profile." ++ d)) as [|a t] eqn:E; [done|].
  rewrite drop_0. cbn [search]. by rewrite Hm.
Qed.

(** X5. What does hold for profile tokens: the first profile token that
    a freshly loaded action meets is left as it is, whatever the table,
    and the resolver goes on behind it with the state the token leaves. *)
Lemma fresh_profile_token_kept (tbl : gmap jsstring jsstring)
    (pre w d post : jsstring) :
  LBRACE ∉ pre ->
  Forall (fun a => is_ws a = true) w ->
  d <> [] -> RBRACE ∉ d ->
  let tok := token (w ++ str "profile." ++ d) in
  exists out li,
    resolve_text tbl post (length tok) = (Ok out, li)
    /\ resolveStaticTokens (JStr (pre ++ tok ++ post)) tbl O
       = (Ok (JStr (pre ++ tok ++ out)), li).
Proof.
  intros Hpre Hw Hne Hd tok. apply not_rbrace_Forall in Hd.
  destruct (resolve_text_total tbl post (length tok)) as (out & li & E & H).
  exists out, li. split; [done|]. rewrite resolveStaticTokens_str.
  assert (resolve_text tbl (pre ++ tok ++ post) O
          = (Ok (pre ++ tok ++ out), li)) as ->; [|done].
  apply resolve_text_resolves. apply resolves_prefix; [done|].
  assert (Forall (fun a => not_rbrace a = true) (w ++ str "profile." ++ d))
    as Hc.
  { rewrite !Forall_app. split; [by apply Forall_ws_not_rbrace|].
    split; [by_compute|done]. }
  eapply resolves_token.
  - apply match_at_token_complete; [by destruct w|done].
  - rewrite replacer_token. rewrite profile_test_fresh by done. reflexivity.
  - done.
Qed.

(** C1 fails on the code.  [test] on a pattern with the [g] flag starts at
    [lastIndex], which the first profile token leaves behind its end: the
    second profile token is not recognised and, with a colliding key in the
    table, is substituted. *)
Theorem second_profile_token_substituted :
  resolveStaticTokens (JStr (str "{{profile.a}}{{profile.a}}"))
    profile_table 0%nat
  = (Ok (JStr (str "{{profile.a}}X")), 0%nat)
  /\ resolveStaticTokens (JStr (str "{{profile.a}}")) profile_table 13%nat
     = (Ok (JStr (str "X")), 0%nat).
Proof. split; vm_compute; reflexivity. Qed.

(** C2 fails on the code.  Two runs in a row on the same text and table
    give different outputs: the first leaves [lastIndex] at 13, where the
    second starts. *)
Theorem two_runs_differ :
  exists li1,
    resolveStaticTokens (JStr (str "{{profile.a}}")) profile_table 0%nat
    = (Ok (JStr (str "{{profile.a}}")), li1)
    /\ resolveStaticTokens (JStr (str "{{profile.a}}")) profile_table li1
       = (Ok (JStr (str "X")), 0%nat).
Proof. exists 13%nat. split; vm_compute; reflexivity. Qed.

(** A profile name that ends with the dot is not matched by the profile
    pattern, which asks for a character behind it. *)
Example empty_profile_path_substituted :
  resolveStaticTokens (JStr (str "{{profile.}}"))
    {[ str "profile." := str "X" ]} 0%nat
  = (Ok (JStr (str "X")), 0%nat).
Proof. by vm_compute. Qed.

Lemma token_free_short (v : jsstring) :
  (length v < 4)%nat -> token_free v.
Proof.
  intros Hlen a c b E. apply (f_equal length) in E.
  rewrite length_app in E. simpl in E. rewrite length_app in E. simpl in E.
  lia.
Qed.

(** C3 as stated fails.  The values of [brace_table] hold no [{{...}}]
    sequence, yet resolving [{{x}}{y}}] gives [{{y}}], and resolving that
    again gives [Z]: the brace a value brings in completes a token with
    the text around it. *)
Lemma resolve_twice_differs :
  (forall k v, brace_table !! k = Some v -> token_free v)
  /\ resolveStaticTokens (JStr (str "{{x}}{y}}")) brace_table 0%nat
     = (Ok (JStr (str "{{y}}")), 0%nat)
  /\ resolveStaticTokens (JStr (str "{{y}}")) brace_table 0%nat
     = (Ok (JStr (str "Z")), 0%nat)
  /\ str "{{y}}" <> str "Z".
Proof.
  split; [|by vm_compute].
  intros k v H. apply token_free_short. unfold brace_table in H.
  apply lookup_insert_Some in H as [[_ <-]|[_ H]]; [simpl; lia|].
  apply lookup_singleton_Some in H as [_ <-]. simpl; lia.
Qed.

(** An empty value, or a value with a closing brace, breaks idempotence
    in the same way. *)
Example resolve_twice_differs_empty_value :
  let tbl : gmap jsstring jsstring := {[ str "x" := []; str "a" := str "Z" ]} in
  resolveStaticTokens (JStr (str "{{a}{{x}}}")) tbl 0%nat
  = (Ok (JStr (str "{{a}}")), 0%nat)
  /\ resolveStaticTokens (JStr (str "{{a}}")) tbl 0%nat
     = (Ok (JStr (str "Z")), 0%nat).
Proof. by vm_compute. Qed.

Example resolve_twice_differs_closing_brace :
  let tbl : gmap jsstring jsstring :=
    {[ str "x" := str "}"; str "y" := str "Z" ]} in
  resolveStaticTokens (JStr (str "{{y}{{x}}")) tbl 0%nat
  = (Ok (JStr (str "{{y}}")), 0%nat)
  /\ resolveStaticTokens (JStr (str "{{y}}")) tbl 0%nat
     = (Ok (JStr (str "Z")), 0%nat).
Proof. by vm_compute. Qed.

Lemma demo_table_plain : plain_table demo_table.
Proof.
  intros k v H. unfold demo_table in H.
  apply lookup_singleton_Some in H as [<- <-].
  repeat split; by_compute.
Qed.

Lemma resolve_idempotent_witness :
  exists out li1 li2,
    resolveStaticTokens (JStr (str "a{{x}}b{{ y }}")) demo_table 3%nat
    = (Ok (JStr out), li1)
    /\ resolveStaticTokens (JStr out) demo_table 9%nat
       = (Ok (JStr out), li2).
Proof.
  apply (resolve_idempotent demo_table (str "a{{x}}b{{ y }}") 3%nat 9%nat).
  exact demo_table_plain.
Defined.

(** ** The publish transformer *)

Lemma resolveStaticTokens_text tbl v li :
  is_text v = true ->
  exists v' li', resolveStaticTokens v tbl li = (Ok v', li').
Proof.
  intros Hv. destruct (ToBoolean v) eqn:Hb.
  - destruct v as [| |b|n|s|l|f]; cbn [is_text] in Hv; rewrite ?Hb in Hv;
      try discriminate Hv.
    destruct (resolve_text_total tbl s li) as (out & li' & E & _).
    exists (JStr out), li'. by rewrite resolveStaticTokens_str, E.
  - exists v, li. by apply resolveStaticTokens_falsy.
Qed.

Section Publish.
Variables (net : network) (p : params) (w : world).

Let tbl : gmap jsstring jsstring := default ∅ (staticTokens p).

(** Missing parameters end the run before any request. *)
Lemma main_missing :
  missing (cfPath p) || missing (authorHost p) || missing (publishHost p)
  = true ->
  main net p w
  = (Ok (Outcome 400 (BodyText (str "Missing required parameters"))), w).
Proof. intros H. unfold main. by rewrite H. Qed.

Hypothesis Hpresent :
  missing (cfPath p) || missing (authorHost p) || missing (publishHost p)
  = false.

Variables (res : response) (cfJson : jsval).
Hypothesis Hnet : net (author_request p) = Some res.
Hypothesis Hok : res_ok res = true.
Hypothesis Hjson : res_json res = Some cfJson.

(** A record without a card id ends the run after the read. *)
Lemma main_no_cardId :
  ToBoolean (element_value cfJson "cardId") = false ->
  main net p w
  = (Ok (Outcome 422 (BodyText (str "cardId is required"))),
     World (lastIndex w) (sent w ++ [author_request p])).
Proof.
  intros Hid. unfold main. rewrite Hpresent.
  unfold bind at 1. unfold fetchAemJson, bind, fetch.
  fold (author_request p). rewrite Hnet, Hok. cbn [negb].
  unfold res_json_body. rewrite Hjson. unfold ret.
  fold (element_value cfJson "cardId"). by rewrite Hid.
Qed.

(** With a card id the run reaches the write, provided the resolver
    throws on none of the four texts; the write carries the payload
    [payload_of] and the time to live [ttl_of]. *)
Lemma main_publishes h l1 b l2 c l3 t l4 :
  ToBoolean (element_value cfJson "cardId") = true ->
  resolveStaticTokens (element_value cfJson "headline") tbl (lastIndex w)
  = (Ok h, l1) ->
  resolveStaticTokens (element_value cfJson "body") tbl l1 = (Ok b, l2) ->
  resolveStaticTokens (element_value cfJson "ctaLabel") tbl l2
  = (Ok c, l3) ->
  resolveStaticTokens (element_value cfJson "termsText") tbl l3
  = (Ok t, l4) ->
  exists r,
    main net p w
    = (r, World l4
            (sent w ++
             [author_request p;
              publish_request p (element_value cfJson "cardId")
                (payload_of cfJson h b c t) (ttl_of cfJson)])).
Proof.
  intros Hid Hh Hb Hc Ht. unfold main. rewrite Hpresent.
  unfold bind at 1. unfold fetchAemJson, bind, fetch.
  fold (author_request p). rewrite Hnet, Hok. cbn [negb].
  unfold res_json_body. rewrite Hjson. unfold ret.
  fold (element_value cfJson "cardId"). rewrite Hid. cbn [negb].
  fold tbl.
  fold (element_value cfJson "headline") (element_value cfJson "body")
    (element_value cfJson "ctaLabel") (element_value cfJson "termsText")
    (element_value cfJson "image") (element_value cfJson "ctaAction")
    (element_value cfJson "cacheTTL").
  unfold with_lastIndex. cbn [lastIndex sent].
  rewrite Hh. cbn [lastIndex sent]. rewrite Hb. cbn [lastIndex sent].
  rewrite Hc. cbn [lastIndex sent]. rewrite Ht. cbn [lastIndex sent].
  unfold putAemJson, bind, fetch, res_json_body, ret, throw.
  cbn [lastIndex sent].
  fold (ttl_of cfJson). fold (payload_of cfJson h b c t).
  fold (publish_request p (element_value cfJson "cardId")
          (payload_of cfJson h b c t) (ttl_of cfJson)).
  rewrite <- app_assoc. cbn [app].
  match goal with
  | |- context [net ?q] => destruct (net q) as [res'|]
  end; [|eexists; reflexivity].
  destruct (res_ok res'); cbn [negb]; [|eexists; reflexivity].
  destruct (res_json res'); eexists; reflexivity.
Qed.
End Publish.

(** The requests of a run: none, the read alone, or the read and the
    write of the assembled payload. *)
Lemma main_sent (net : network) (p : params) (w : world) :
  exists new,
    sent (main net p w).2 = sent w ++ new
    /\ (new = [] \/ new = [author_request p]
        \/ exists res cfJson h b c t,
             net (author_request p) = Some res
             /\ res_json res = Some cfJson
             /\ new = [author_request p;
                       publish_request p (element_value cfJson "cardId")
                         (payload_of cfJson h b c t) (ttl_of cfJson)]).
Proof.
  destruct (missing (cfPath p) || missing (authorHost p)
            || missing (publishHost p)) eqn:Hpresent.
  { exists []. rewrite main_missing by done. rewrite app_nil_r. auto. }
  destruct (net (author_request p)) as [res|] eqn:Hnet;
    [destruct (res_ok res) eqn:Hok;
     [destruct (res_json res) as [cfJson|] eqn:Hjson|]|].
  2-4: exists [author_request p]; split; [|auto];
    unfold main; rewrite Hpresent; unfold bind at 1;
    unfold fetchAemJson, bind, fetch, res_json_body;
    fold (author_request p); by rewrite Hnet, ?Hok, ?Hjson.
  destruct (ToBoolean (element_value cfJson "cardId")) eqn:Hid.
  2:{ exists [author_request p].
      rewrite (main_no_cardId net p w Hpresent res cfJson) by done. auto. }
  set (tbl := default ∅ (staticTokens p)).
  destruct (resolveStaticTokens (element_value cfJson "headline") tbl
              (lastIndex w)) as [[h|e1] l1] eqn:Hh.
  1: destruct (resolveStaticTokens (element_value cfJson "body") tbl l1)
       as [[b|e2] l2] eqn:Hb.
  1: destruct (resolveStaticTokens (element_value cfJson "ctaLabel") tbl l2)
       as [[c|e3] l3] eqn:Hc.
  1: destruct (resolveStaticTokens (element_value cfJson "termsText") tbl l3)
       as [[t|e4] l4] eqn:Ht.
  2-5: exists [author_request p]; split; [|auto];
    unfold main; rewrite Hpresent; unfold bind at 1;
    unfold fetchAemJson, bind, fetch, res_json_body, ret;
    fold (author_request p); rewrite Hnet, Hok, Hjson; cbn [negb];
    fold (element_value cfJson "cardId"); rewrite Hid; cbn [negb];
    fold tbl;
    fold (element_value cfJson "headline") (element_value cfJson "body")
      (element_value cfJson "ctaLabel") (element_value cfJson "termsText");
    unfold with_lastIndex; cbn [lastIndex sent];
    rewrite Hh; cbn [lastIndex sent];
    rewrite ?Hb; cbn [lastIndex sent];
    rewrite ?Hc; cbn [lastIndex sent];
    by rewrite ?Ht.
  destruct (main_publishes net p w Hpresent res cfJson Hnet Hok Hjson
              h l1 b l2 c l3 t l4 Hid Hh Hb Hc Ht) as [r ->].
  eexists. split; [reflexivity|]. right. right.
  by exists res, cfJson, h, b, c, t.
Qed.

Lemma missing_spec o : missing o = true <-> absent_or_empty o.
Proof.
  unfold absent_or_empty.
  destruct o as [[|c s]|]; simpl; split; auto; try discriminate.
  intros [|]; discriminate.
Qed.

(** C9. When the source location, the source host or the destination host
    is absent or empty, the run ends with status 400 and the world is
    unchanged: no request is issued, in particular no read of the source. *)
Theorem missing_parameter_no_request (net : network) (p : params)
    (w : world) :
  absent_or_empty (cfPath p) \/ absent_or_empty (authorHost p)
  \/ absent_or_empty (publishHost p) ->
  main net p w
  = (Ok (Outcome 400 (BodyText (str "Missing required parameters"))), w).
Proof.
  rewrite <- !missing_spec. intros H. apply main_missing.
  destruct H as [-> | [-> | ->]]; by rewrite ?orb_true_r.
Qed.

Lemma missing_parameter_no_request_witness :
  main (serve cup_record)
    (Params (Some (str "/content/dam/cards/personal-cup"))
            (Some (str "https://author.example.aem.cloud")) None
            (Some (str "AUTHOR")) (Some (str "PUBLISH")) None)
    (World 7 [])
  = (Ok (Outcome 400 (BodyText (str "Missing required parameters"))),
     World 7 []).
Proof.
  apply missing_parameter_no_request. right. right. by left.
Defined.

(** C8. When the fetched record has no card id, the run ends with status
    422, which is not the status 400 of a missing parameter, and the only
    request issued is the read: there is no write. *)
Theorem missing_cardId_unprocessable (net : network) (p : params)
    (w : world) (res : response) (cfJson : jsval) :
  missing (cfPath p) || missing (authorHost p) || missing (publishHost p)
  = false ->
  net (author_request p) = Some res ->
  res_ok res = true ->
  res_json res = Some cfJson ->
  ToBoolean (element_value cfJson "cardId") = false ->
  main net p w
  = (Ok (Outcome 422 (BodyText (str "cardId is required"))),
     World (lastIndex w) (sent w ++ [author_request p]))
  /\ req_method (author_request p) = GET
  /\ (422 <> 400)%N.
Proof.
  intros Hpresent Hnet Hok Hjson Hid. split; [|done].
  by apply (main_no_cardId net p w Hpresent res cfJson).
Qed.

Lemma missing_cardId_unprocessable_witness :
  main (serve headline_only_record) demo_params (World 0 [])
  = (Ok (Outcome 422 (BodyText (str "cardId is required"))),
     World 0 [author_request demo_params])
  /\ req_method (author_request demo_params) = GET
  /\ (422 <> 400)%N.
Proof.
  apply (missing_cardId_unprocessable (serve headline_only_record)
           demo_params (World 0 [])
           (Response true 200 [] (Some headline_only_record))
           headline_only_record); reflexivity.
Defined.

(** C10. Whatever a run writes, the image of the payload is the image
    value of the fetched record or, when that is falsy, [null]; the
    resolver has no part in it.  So an absent or empty image value gives
    exactly [null], and a non-empty one is copied as it is. *)
Theorem image_not_resolved (net : network) (p : params) (w w' : world)
    (r : result outcome) (new : list request) (res : response)
    (cfJson : jsval) (q : request) (pl : payload) :
  net (author_request p) = Some res ->
  res_json res = Some cfJson ->
  main net p w = (r, w') ->
  sent w' = sent w ++ new ->
  q ∈ new ->
  req_body q = Some pl ->
  p_image pl = or_else (element_value cfJson "image") JNull
  /\ (element_value cfJson "image" = JUndefined
      \/ element_value cfJson "image" = JStr [] -> p_image pl = JNull)
  /\ (forall s, s <> [] -> element_value cfJson "image" = JStr s ->
                p_image pl = JStr s).
Proof.
  intros Hnet Hjson Hrun Hsent Hq Hbody.
  assert (p_image pl = or_else (element_value cfJson "image") JNull) as ->.
  { destruct (main_sent net p w) as (new' & Hsent' & Hnew).
    rewrite Hrun in Hsent'. cbn [snd] in Hsent'. rewrite Hsent in Hsent'.
    apply app_inv_head in Hsent' as ->.
    destruct Hnew as [->|[->|(res' & cfJson' & h & b & c & t & Hn & Hj & ->)]].
    - by apply elem_of_nil in Hq.
    - apply list_elem_of_singleton in Hq as ->. discriminate Hbody.
    - rewrite Hnet in Hn. injection Hn as <-.
      rewrite Hjson in Hj. injection Hj as <-.
      apply elem_of_cons in Hq as [->|Hq]; [discriminate Hbody|].
      apply list_elem_of_singleton in Hq as ->. by injection Hbody as <-. }
  split; [done|]. split.
  - by intros [->| ->].
  - intros s Hs ->. by destruct s.
Qed.

Lemma image_not_resolved_witness :
  let pl := payload_of image_record JUndefined JUndefined JUndefined
              JUndefined in
  p_image pl = or_else (element_value image_record "image") JNull
  /\ (element_value image_record "image" = JUndefined
      \/ element_value image_record "image" = JStr [] -> p_image pl = JNull)
  /\ (forall s, s <> [] -> element_value image_record "image" = JStr s ->
                p_image pl = JStr s).
Proof.
  pose (run := main (serve image_record) demo_params (World 0 [])).
  apply (image_not_resolved (serve image_record) demo_params (World 0 [])
           run.2 run.1 (sent run.2)
           (Response true 200 [] (Some image_record)) image_record
           (publish_request demo_params (JStr (str "cup"))
              (payload_of image_record JUndefined JUndefined JUndefined
                 JUndefined)
              (ttl_of image_record))).
  - reflexivity.
  - reflexivity.
  - apply surjective_pairing.
  - reflexivity.
  - vm_compute. apply list_elem_of_further, list_elem_of_here.
  - reflexivity.
Defined.

Example image_keeps_tokens :
  p_image (payload_of image_record JUndefined JUndefined JUndefined JUndefined)
  = JStr (str "/img/{{env.brand}}.png").
Proof. reflexivity. Qed.




(** The headline of the sample record resolves the same way whatever the
    state of the profile pattern: the first token is not a profile token,
    so [test] fails on it and resets [lastIndex]. *)
Lemma cup_headline_resolved (li : nat) :
  resolveStaticTokens (JStr (str "Hi {{env.brand}}, {{profile.name}}"))
    brand_table li
  = (Ok (JStr (str "Hi Acme, {{profile.name}}")), 16%nat).
Proof.
  rewrite resolveStaticTokens_str.
  assert (resolve_text brand_table
            (str "Hi {{env.brand}}, {{profile.name}}") li
          = (Ok (str "Hi Acme, {{profile.name}}"), 16%nat)) as ->; [|done].
  apply resolve_text_resolves.
  change (str "Hi {{env.brand}}, {{profile.name}}")
    with (str "Hi " ++ token (str "env.brand") ++ str ", {{profile.name}}").
  change (str "Hi Acme, {{profile.name}}")
    with (str "Hi " ++ str "Acme" ++ str ", {{profile.name}}").
  apply resolves_prefix; [by_compute|].
  eapply resolves_token.
  - apply match_at_token_complete; [done|by_compute].
  - rewrite replacer_token, RegExp_test_None by reflexivity. reflexivity.
  - by apply resolve_text_resolves.
Qed.

(** C5. End to end: for the record with card id [cup], headline
    [Hi {{env.brand}}, {{profile.name}}] and a time to live of 3600,
    published with the table that maps [env.brand] to [Acme], the write
    goes to the card's location, its payload has the headline
    [Hi Acme, {{profile.name}}], and its cache directive holds
    [max-age=3600]. *)
Theorem publish_cup_end_to_end (net : network) (p : params) (w : world)
    (res : response) :
  missing (cfPath p) || missing (authorHost p) || missing (publishHost p)
  = false ->
  staticTokens p = Some brand_table ->
  net (author_request p) = Some res ->
  res_ok res = true ->
  res_json res = Some cup_record ->
  exists r li q pl,
    main net p w = (r, World li (sent w ++ [author_request p; q]))
    /\ req_method q = PUT
    /\ req_url q
       = opt_string (publishHost p) ++ str "/content/cards/cup.json"
    /\ req_body q = Some pl
    /\ p_headline pl = JStr (str "Hi Acme, {{profile.name}}")
    /\ header q "Cache-Control"
       = Some (str "public, " ++ str "max-age=3600" ++ str ", immutable").
Proof.
  intros Hpresent Htbl Hnet Hok Hjson.
  destruct (main_publishes net p w Hpresent res cup_record Hnet Hok Hjson
              (JStr (str "Hi Acme, {{profile.name}}")) 16%nat
              JUndefined 16%nat JUndefined 16%nat JUndefined 16%nat)
    as [r Hrun];
    rewrite ?Htbl; try reflexivity.
  { apply cup_headline_resolved. }
  exists r, 16%nat. eexists _, _. split; [exact Hrun|]. by repeat split.
Qed.

Lemma publish_cup_end_to_end_witness :
  exists r li q pl,
    main (serve cup_record) demo_params (World 5 [])
    = (r, World li ([] ++ [author_request demo_params; q]))
    /\ req_method q = PUT
    /\ req_url q
       = opt_string (publishHost demo_params)
         ++ str "/content/cards/cup.json"
    /\ req_body q = Some pl
    /\ p_headline pl = JStr (str "Hi Acme, {{profile.name}}")
    /\ header q "Cache-Control"
       = Some (str "public, " ++ str "max-age=3600" ++ str ", immutable").
Proof.
  apply (publish_cup_end_to_end (serve cup_record) demo_params (World 5 [])
           (Response true 200 [] (Some cup_record))); reflexivity.
Defined.

(** * Further properties of the resolver *)

Lemma RegExp_test_false_resets r s li :
  (RegExp_test r s li).1 = false -> RegExp_test r s li = (false, O).
Proof.
  unfold RegExp_test, RegExp_exec.
  destruct (length s <? li)%nat; [done|].
  by destruct (search r (drop li s)) as [[i m]|].
Qed.

Lemma elem_of_drop_while_inv p x s : x ∈ drop_while p s -> x ∈ s.
Proof.
  induction s as [|a s IH]; simpl; [done|].
  destruct (p a); [|done]. intros H. right. by apply IH.
Qed.

Lemma elem_of_trim_inv x s : x ∈ trim s -> x ∈ s.
Proof.
  unfold trim. intros H. apply (proj1 (elem_of_reverse _ _)) in H.
  apply elem_of_drop_while_inv in H. apply (proj1 (elem_of_reverse _ _)) in H.
  by apply elem_of_drop_while_inv in H.
Qed.

(** [test] rejects a token whose trimmed name does not start with
    [profile.] and that holds no opening brace, and resets [lastIndex]. *)
Lemma profile_test_false c li :
  RBRACE ∉ c -> LBRACE ∉ c ->
  ~ (str "profile." `prefix_of` trim c) ->
  RegExp_test PROFILE_TOKEN_REGEX (token c) li = (false, O).
Proof.
  intros Hrb Hlb Hpre. apply RegExp_test_false_resets.
  destruct (RegExp_test PROFILE_TOKEN_REGEX (token c) li).1 eqn:E; [|done].
  apply profile_test_true in E as [E|E]; [done| |by apply not_rbrace_Forall].
  by apply elem_of_trim_inv in E.
Qed.

(** X1. A token whose trimmed name is a key of the table, does not start
    with [profile.] and holds no opening brace is replaced by the value of
    the key, inserted as it is (whatever it holds, it is not resolved
    again); this holds for every state of the profile pattern, which the
    token leaves at 0. *)
Theorem static_token_substituted (tbl : gmap jsstring jsstring)
    (pre c post v : jsstring) (li : nat) :
  LBRACE ∉ pre -> c <> [] -> RBRACE ∉ c -> LBRACE ∉ c ->
  ~ (str "profile." `prefix_of` trim c) ->
  tbl !! trim c = Some v ->
  exists out li2,
    resolve_text tbl post O = (Ok out, li2)
    /\ resolveStaticTokens (JStr (pre ++ token c ++ post)) tbl li
       = (Ok (JStr (pre ++ v ++ out)), li2).
Proof.
  intros Hpre Hne Hrb Hlb Hprof Hk.
  destruct (resolve_text_total tbl post O) as (out & li2 & E & H).
  exists out, li2. split; [done|]. rewrite resolveStaticTokens_str.
  assert (resolve_text tbl (pre ++ token c ++ post) li
          = (Ok (pre ++ v ++ out), li2)) as ->; [|done].
  apply resolve_text_resolves. apply resolves_prefix; [done|].
  eapply resolves_token.
  - apply match_at_token_complete; [done|by apply not_rbrace_Forall].
  - rewrite replacer_token, profile_test_false by done.
    cbn [fst snd]. by rewrite Hk.
  - done.
Qed.

Lemma static_token_substituted_witness :
  exists out li2,
    resolve_text brand_table (str "!") O = (Ok out, li2)
    /\ resolveStaticTokens
         (JStr (str "Hi " ++ token (str " env.brand ") ++ str "!"))
         brand_table 7%nat
       = (Ok (JStr (str "Hi " ++ str "Acme" ++ out)), li2).
Proof.
  apply (static_token_substituted brand_table (str "Hi ")
           (str " env.brand ") (str "!") (str "Acme") 7%nat);
    by_compute.
Defined.

Lemma resolves_empty_table s li out li' :
  resolves ∅ s li out li' -> out = s.
Proof.
  induction 1 as [li|a s li out li' Hm _ IH|s m li v li1 out li2 Hm Hv _ IH].
  - done.
  - by rewrite IH.
  - apply match_at_token_inv in Hm as (c & r & Hne & Hc & -> & ->).
    rewrite replacer_token, lookup_empty in Hv. cbn [rest] in IH.
    injection Hv as <- _. rewrite IH. by destruct (RegExp_test _ _ _).1.
Qed.

Lemma resolveStaticTokens_empty_table (input : jsval) (li : nat) :
  is_text input = true ->
  exists li', resolveStaticTokens input ∅ li = (Ok input, li').
Proof.
  intros Htext. destruct (ToBoolean input) eqn:Hb.
  - destruct input as [| |b|n|s|l|f]; cbn [is_text] in Htext;
      rewrite ?Hb in Htext; try discriminate Htext.
    destruct (resolve_text_total ∅ s li) as (out & li' & E & H).
    apply resolves_empty_table in H as ->.
    exists li'. by rewrite resolveStaticTokens_str, E.
  - exists li. by apply resolveStaticTokens_falsy.
Qed.

(** X2. With the empty table, which is what [main] uses when the
    parameter [staticTokens] is absent, the resolver returns every text
    and every falsy value as it is: nothing is ever substituted. *)
Theorem empty_table_identity (input : jsval) (li : nat) :
  is_text input = true ->
  exists li', resolveStaticTokens input ∅ li = (Ok input, li').
Proof. apply resolveStaticTokens_empty_table. Qed.

Lemma empty_table_identity_witness :
  exists li',
    resolveStaticTokens (JStr (str "a{{x}}{{profile.n}}{{ y }}")) ∅ 4%nat
    = (Ok (JStr (str "a{{x}}{{profile.n}}{{ y }}")), li').
Proof.
  apply (empty_table_identity (JStr (str "a{{x}}{{profile.n}}{{ y }}")) 4%nat).
  reflexivity.
Defined.

Section PlainKeys.
Variable tbl : gmap jsstring jsstring.
Hypothesis Hkeys : plain_keys tbl.

(** With plain keys, what [replacer] returns for a token does not depend
    on [lastIndex]. *)
Lemma replacer_plain_keys c r li :
  Forall (fun a => not_rbrace a = true) c ->
  (replacer tbl (MatchResult (token c) (Some (capture c)) r) li).1
  = Ok (default (token c) (tbl !! trim c)).
Proof.
  intros Hc. rewrite replacer_token. cbn [fst].
  destruct (RegExp_test PROFILE_TOKEN_REGEX (token c) li).1 eqn:Ht; [|done].
  destruct (tbl !! trim c) as [v|] eqn:Hk; [|done].
  destruct (Hkeys _ _ Hk) as [Hpre Hlb].
  by destruct (profile_test_true _ _ Hc Ht).
Qed.

Lemma resolves_any_state s li out li' :
  resolves tbl s li out li' ->
  forall l1, exists l2, resolves tbl s l1 out l2.
Proof.
  induction 1 as [li|a s li out li' Hm _ IH|s m li v li1 out li2 Hm Hv _ IH];
    intros l1.
  - exists l1. constructor.
  - destruct (IH l1) as [l2 H]. exists l2. by constructor.
  - pose proof Hm as Hm'.
    apply match_at_token_inv in Hm' as (c & r & Hne & Hc & -> & ->).
    pose proof (replacer_plain_keys c r li Hc) as E. rewrite Hv in E.
    injection E as ->.
    pose proof (replacer_plain_keys c r l1 Hc) as E1.
    destruct (replacer tbl _ l1) as [r1 l1'] eqn:Hv1. cbn [fst] in E1.
    subst r1. destruct (IH l1') as [l2 H]. exists l2.
    by eapply resolves_token.
Qed.
End PlainKeys.

Lemma resolveStaticTokens_any_state (tbl : gmap jsstring jsstring)
    (input : jsval) (li li' : nat) :
  plain_keys tbl ->
  (resolveStaticTokens input tbl li).1 = (resolveStaticTokens input tbl li').1.
Proof.
  intros Hkeys. unfold resolveStaticTokens.
  destruct (negb (ToBoolean input)); [done|].
  destruct input as [| |b|n|s|l|f]; try done.
  fold (resolveStaticTokens (JStr s) tbl).
  destruct (resolve_text_total tbl s li) as (out & l1 & E & H).
  destruct (resolves_any_state tbl Hkeys _ _ _ _ H li') as [l2 H2].
  apply resolve_text_resolves in H2. unfold bind. by rewrite E, H2.
Qed.

(** X3. With a table none of whose keys starts with [profile.] or holds
    an opening brace, the result of the resolver (the text returned, or
    the error thrown) does not depend on the state of the profile
    pattern: runs on the same input and table give the same result. *)
Theorem plain_keys_state_independent (tbl : gmap jsstring jsstring)
    (input : jsval) (li li' : nat) :
  plain_keys tbl ->
  (resolveStaticTokens input tbl li).1 = (resolveStaticTokens input tbl li').1.
Proof. apply resolveStaticTokens_any_state. Qed.

Lemma brand_table_plain_keys : plain_keys brand_table.
Proof.
  intros k v H. unfold brand_table in H.
  apply lookup_singleton_Some in H as [<- <-]. split; by_compute.
Qed.

Lemma plain_keys_state_independent_witness :
  (resolveStaticTokens (JStr (str "{{profile.a}}{{env.brand}}"))
     brand_table 0%nat).1
  = (resolveStaticTokens (JStr (str "{{profile.a}}{{env.brand}}"))
       brand_table 13%nat).1.
Proof.
  apply plain_keys_state_independent. exact brand_table_plain_keys.
Defined.

(** X4. What the token pattern matches at the start of a text: a text
    that starts with two opening braces, a non-empty run without a closing
    brace and two closing braces is matched up to those braces, and the
    capture trims to the trimmed run; any other text is not matched.  So
    [{{}}] and [{{a}b}}] are not tokens. *)
Theorem token_pattern_matches (s : jsstring) :
  (exists c r,
      s = token c ++ r /\ c <> [] /\ (RBRACE ∉ c)
      /\ exists g,
           match_at TOKEN_REGEX s = Some (MatchResult (token c) (Some g) r)
           /\ trim g = trim c)
  \/ (match_at TOKEN_REGEX s = None
      /\ forall c r, c <> [] -> RBRACE ∉ c -> s <> token c ++ r).
Proof.
  destruct (match_at TOKEN_REGEX s) as [m|] eqn:E.
  - left. apply match_at_token_inv in E as (c & r & Hne & Hc & -> & ->).
    exists c, r. split; [done|]. split; [done|]. split.
    + intros Hin. apply (proj1 (Forall_forall _ _) Hc) in Hin. done.
    + exists (capture c). split; [done|]. apply trim_capture.
  - right. split; [done|]. intros c r Hne Hc ->.
    rewrite match_at_token_complete in E; [done..|].
    by apply not_rbrace_Forall.
Qed.

Example not_tokens :
  match_at TOKEN_REGEX (str "{{}}") = None
  /\ match_at TOKEN_REGEX (str "{{a}b}}") = None
  /\ match_at TOKEN_REGEX (str "{ {a}}") = None.
Proof. by vm_compute. Qed.

Lemma fresh_profile_token_kept_witness :
  let tok := token (str " " ++ str "profile." ++ str "name ") in
  exists out li,
    resolve_text profile_table (str "{{profile.a}}") (length tok)
    = (Ok out, li)
    /\ resolveStaticTokens (JStr (str "Hi " ++ tok ++ str "{{profile.a}}"))
         profile_table O
       = (Ok (JStr (str "Hi " ++ tok ++ out)), li).
Proof.
  apply (fresh_profile_token_kept profile_table (str "Hi ") (str " ")
           (str "name ") (str "{{profile.a}}")); by_compute.
Defined.

Lemma search_finds r s i m :
  match_at r (drop i s) = Some m -> exists i' m', search r s = Some (i', m').
Proof.
  intros H. destruct (search r s) as [[i' m']|] eqn:E; [by eexists _, _|].
  rewrite (proj1 (search_None r s) E i) in H. done.
Qed.

(** X6. The profile pattern is not anchored to the start of the token: on
    a freshly loaded action, a token whose name merely holds [{{profile.]
    and a path further inside is taken for a profile token and left as it
    is, even when its own name is a key of the table. *)
Theorem inner_profile_marker_kept (tbl : gmap jsstring jsstring)
    (pre j w d post : jsstring) :
  LBRACE ∉ pre -> RBRACE ∉ j ->
  Forall (fun a => is_ws a = true) w ->
  d <> [] -> RBRACE ∉ d ->
  let tok := token (j ++ LBRACE :: LBRACE :: w ++ str "profile." ++ d) in
  exists out li1 li2,
    resolve_text tbl post li1 = (Ok out, li2)
    /\ resolveStaticTokens (JStr (pre ++ tok ++ post)) tbl O
       = (Ok (JStr (pre ++ tok ++ out)), li2).
Proof.
  intros Hpre Hj Hw Hne Hd tok.
  apply not_rbrace_Forall in Hj. apply not_rbrace_Forall in Hd.
  set (c := j ++ LBRACE :: LBRACE :: w ++ str "profile." ++ d) in *.
  assert (Forall (fun a => not_rbrace a = true) c) as Hc.
  { unfold c. rewrite Forall_app. split; [done|].
    do 2 (constructor; [done|]). rewrite !Forall_app.
    split; [by apply Forall_ws_not_rbrace|]. split; [by_compute|done]. }
  assert ((RegExp_test PROFILE_TOKEN_REGEX tok O).1 = true) as Ht.
  { unfold RegExp_test, RegExp_exec. cbn [Nat.ltb Nat.leb]. rewrite drop_0.
    destruct (search_finds PROFILE_TOKEN_REGEX tok (2 + length j)
                (MatchResult (token (w ++ str "profile." ++ d)) None []))
      as (i' & m' & ->); [|done].
    unfold tok, token, c. cbn [drop plus].
    rewrite <- app_assoc, drop_app_length.
    pose proof (match_at_profile_complete w d [] Hw Hne Hd) as Hm.
    rewrite app_nil_r in Hm. exact Hm. }
  set (li1 := (RegExp_test PROFILE_TOKEN_REGEX tok O).2).
  destruct (resolve_text_total tbl post li1) as (out & li2 & E & H).
  exists out, li1, li2. split; [done|]. rewrite resolveStaticTokens_str.
  assert (resolve_text tbl (pre ++ tok ++ post) O
          = (Ok (pre ++ tok ++ out), li2)) as ->; [|done].
  apply resolve_text_resolves. apply resolves_prefix; [done|].
  eapply resolves_token.
  - apply match_at_token_complete; [by destruct j|done].
  - rewrite replacer_token. fold tok. by rewrite Ht.
  - done.
Qed.

Lemma inner_profile_marker_kept_witness :
  let tok :=
    token (str "a" ++ LBRACE :: LBRACE :: [] ++ str "profile." ++ str "x") in
  exists out li1 li2,
    resolve_text {[ str "a{{profile.x" := str "V" ]} (str "!") li1
    = (Ok out, li2)
    /\ resolveStaticTokens (JStr ([] ++ tok ++ str "!"))
         {[ str "a{{profile.x" := str "V" ]} O
       = (Ok (JStr ([] ++ tok ++ out)), li2).
Proof.
  apply (inner_profile_marker_kept {[ str "a{{profile.x" := str "V" ]}
           [] (str "a") [] (str "x") (str "!")); by_compute.
Defined.

(** * Further properties of the publish transformer *)

Lemma resolveStaticTokens_not_text tbl v li :
  is_text v = false ->
  resolveStaticTokens v tbl li
  = (Throw (TypeError "input.replace is not a function"), li).
Proof.
  intros H. unfold resolveStaticTokens.
  destruct v as [| |b|n|s|l|f]; cbn [is_text] in H; try discriminate H;
    apply negb_false_iff in H; by rewrite H.
Qed.

Section Runs.
Variables (net : network) (p : params) (w : world).

Hypothesis Hpresent :
  missing (cfPath p) || missing (authorHost p) || missing (publishHost p)
  = false.

(** Unfolds [main] up to the answer to the read. *)
Ltac to_read :=
  unfold main; rewrite Hpresent; unfold bind at 1;
  unfold fetchAemJson, bind, fetch, res_json_body, ret, throw;
  fold (author_request p).

Lemma main_read_rejected :
  net (author_request p) = None ->
  main net p w
  = (Throw (FetchError "request failed"),
     World (lastIndex w) (sent w ++ [author_request p])).
Proof. intros Hnet. to_read. by rewrite Hnet. Qed.

Variable res : response.
Hypothesis Hnet : net (author_request p) = Some res.

Lemma main_read_not_ok :
  res_ok res = false ->
  main net p w
  = (Throw (Error (str "AEM fetch failed: " ++ N_to_string (res_status res)
                   ++ str " " ++ res_text res)),
     World (lastIndex w) (sent w ++ [author_request p])).
Proof. intros Hok. to_read. by rewrite Hnet, Hok. Qed.

Hypothesis Hok : res_ok res = true.

Lemma main_read_not_json :
  res_json res = None ->
  main net p w
  = (Throw (FetchError "invalid json response body"),
     World (lastIndex w) (sent w ++ [author_request p])).
Proof. intros Hjson. to_read. by rewrite Hnet, Hok, Hjson. Qed.

Variable cfJson : jsval.
Hypothesis Hjson : res_json res = Some cfJson.
Hypothesis Hid : ToBoolean (element_value cfJson "cardId") = true.

Let tbl : gmap jsstring jsstring := default ∅ (staticTokens p).

(** Unfolds [main] up to the first call of the resolver. *)
Ltac to_resolver :=
  to_read; rewrite Hnet, Hok, Hjson; cbn [negb];
  fold (element_value cfJson "cardId"); rewrite Hid; cbn [negb];
  fold tbl;
  fold (element_value cfJson "headline") (element_value cfJson "body")
    (element_value cfJson "ctaLabel") (element_value cfJson "termsText")
    (element_value cfJson "image") (element_value cfJson "ctaAction")
    (element_value cfJson "cacheTTL");
  unfold with_lastIndex; cbn [lastIndex sent].

(** A resolver that throws ends the run before the write. *)
Lemma main_resolver_throws :
  forall r1 l1 r2 l2 r3 l3 r4 l4,
    resolveStaticTokens (element_value cfJson "headline") tbl (lastIndex w)
    = (r1, l1) ->
    resolveStaticTokens (element_value cfJson "body") tbl l1 = (r2, l2) ->
    resolveStaticTokens (element_value cfJson "ctaLabel") tbl l2 = (r3, l3) ->
    resolveStaticTokens (element_value cfJson "termsText") tbl l3
    = (r4, l4) ->
    forall e,
      match r1, r2, r3, r4 with
      | Throw e1, _, _, _ => e = e1
      | Ok _, Throw e2, _, _ => e = e2
      | Ok _, Ok _, Throw e3, _ => e = e3
      | Ok _, Ok _, Ok _, Throw e4 => e = e4
      | Ok _, Ok _, Ok _, Ok _ => False
      end ->
      exists li,
        main net p w
        = (Throw e, World li (sent w ++ [author_request p])).
Proof.
  intros r1 l1 r2 l2 r3 l3 r4 l4 H1 H2 H3 H4 e He. to_resolver.
  rewrite H1. destruct r1 as [h|e1]; [|subst e; by eexists].
  cbn [lastIndex sent]. rewrite H2.
  destruct r2 as [b|e2]; [|subst e; by eexists].
  cbn [lastIndex sent]. rewrite H3.
  destruct r3 as [c|e3]; [|subst e; by eexists].
  cbn [lastIndex sent]. rewrite H4.
  destruct r4 as [t|e4]; [done|subst e; by eexists].
Qed.

(** With four resolved texts the write is issued, and the run ends with
    what [write_result] makes of the answer. *)
Lemma main_write h l1 b l2 c l3 t l4 :
  resolveStaticTokens (element_value cfJson "headline") tbl (lastIndex w)
  = (Ok h, l1) ->
  resolveStaticTokens (element_value cfJson "body") tbl l1 = (Ok b, l2) ->
  resolveStaticTokens (element_value cfJson "ctaLabel") tbl l2 = (Ok c, l3) ->
  resolveStaticTokens (element_value cfJson "termsText") tbl l3
  = (Ok t, l4) ->
  let q := publish_request p (element_value cfJson "cardId")
             (payload_of cfJson h b c t) (ttl_of cfJson) in
  main net p w
  = (write_result (req_url q) (net q),
     World l4 (sent w ++ [author_request p; q])).
Proof.
  intros Hh Hb Hc Ht q. to_resolver.
  rewrite Hh. cbn [lastIndex sent]. rewrite Hb. cbn [lastIndex sent].
  rewrite Hc. cbn [lastIndex sent]. rewrite Ht. cbn [lastIndex sent].
  unfold putAemJson, bind, fetch, res_json_body, ret, throw.
  cbn [lastIndex sent]. fold (ttl_of cfJson).
  rewrite <- app_assoc. cbn [app].
  change (Request PUT _ _ _) with q.
  unfold write_result. destruct (net q) as [res'|]; [|done].
  destruct (res_ok res'); cbn [negb]; [|done].
  by destruct (res_json res').
Qed.
End Runs.

(** Every run of [main]: the parameters are missing; or the run ends
    behind the read, with status 422 or an error; or the write is issued
    and the answer to it decides. *)
Lemma main_cases (net : network) (p : params) (w : world) :
  let tbl := default ∅ (staticTokens p) in
  (missing (cfPath p) || missing (authorHost p) || missing (publishHost p)
   = true
   /\ main net p w
      = (Ok (Outcome 400 (BodyText (str "Missing required parameters"))), w))
  \/ (exists r li,
         main net p w = (r, World li (sent w ++ [author_request p]))
         /\ (r = Ok (Outcome 422 (BodyText (str "cardId is required")))
             \/ exists e, r = Throw e))
  \/ (exists res cfJson h l1 b l2 c l3 t l4,
         net (author_request p) = Some res
         /\ res_ok res = true
         /\ res_json res = Some cfJson
         /\ ToBoolean (element_value cfJson "cardId") = true
         /\ resolveStaticTokens (element_value cfJson "headline") tbl
              (lastIndex w) = (Ok h, l1)
         /\ resolveStaticTokens (element_value cfJson "body") tbl l1
            = (Ok b, l2)
         /\ resolveStaticTokens (element_value cfJson "ctaLabel") tbl l2
            = (Ok c, l3)
         /\ resolveStaticTokens (element_value cfJson "termsText") tbl l3
            = (Ok t, l4)
         /\ let q := publish_request p (element_value cfJson "cardId")
                       (payload_of cfJson h b c t) (ttl_of cfJson) in
            main net p w
            = (write_result (req_url q) (net q),
               World l4 (sent w ++ [author_request p; q]))).
Proof.
  intros tbl.
  destruct (missing (cfPath p) || missing (authorHost p)
            || missing (publishHost p)) eqn:Hpresent.
  { left. split; [done|]. by apply main_missing. }
  right.
  destruct (net (author_request p)) as [res|] eqn:Hnet.
  2:{ left. eexists _, _. split; [by apply main_read_rejected|]. eauto. }
  destruct (res_ok res) eqn:Hok.
  2:{ left. eexists _, _. split; [by eapply main_read_not_ok|]. eauto. }
  destruct (res_json res) as [cfJson|] eqn:Hjson.
  2:{ left. eexists _, _. split; [by eapply main_read_not_json|]. eauto. }
  destruct (ToBoolean (element_value cfJson "cardId")) eqn:Hid.
  2:{ left. eexists _, _. split; [by eapply main_no_cardId|]. eauto. }
  destruct (resolveStaticTokens (element_value cfJson "headline") tbl
              (lastIndex w)) as [r1 l1] eqn:H1.
  destruct (resolveStaticTokens (element_value cfJson "body") tbl l1)
    as [r2 l2] eqn:H2.
  destruct (resolveStaticTokens (element_value cfJson "ctaLabel") tbl l2)
    as [r3 l3] eqn:H3.
  destruct (resolveStaticTokens (element_value cfJson "termsText") tbl l3)
    as [r4 l4] eqn:H4.
  pose proof (main_resolver_throws net p w Hpresent res Hnet Hok cfJson
                Hjson Hid _ _ _ _ _ _ _ _ H1 H2 H3 H4) as Hthrow.
  destruct r1 as [h|e1].
  2:{ left. destruct (Hthrow e1 eq_refl) as [li ->]. eexists _, _. eauto. }
  destruct r2 as [b|e2].
  2:{ left. destruct (Hthrow e2 eq_refl) as [li ->]. eexists _, _. eauto. }
  destruct r3 as [c|e3].
  2:{ left. destruct (Hthrow e3 eq_refl) as [li ->]. eexists _, _. eauto. }
  destruct r4 as [t|e4].
  2:{ left. destruct (Hthrow e4 eq_refl) as [li ->]. eexists _, _. eauto. }
  right. exists res, cfJson, h, l1, b, l2, c, l3, t, l4.
  repeat (split; [done|]).
  by apply (main_write net p w Hpresent res Hnet Hok cfJson Hjson Hid
              h l1 b l2 c l3 t l4).
Qed.

(** X7. When the read fails, [main] throws and issues no write: the read
    is the only request and the profile pattern is left as it was.  This
    covers a rejected request, a response that is not [ok] and a body
    that is not JSON; for a response that is not [ok] the error carries
    the message [AEM fetch failed: <status> <body>]. *)
Theorem read_failure_no_write (net : network) (p : params) (w : world) :
  missing (cfPath p) || missing (authorHost p) || missing (publishHost p)
  = false ->
  (net (author_request p) = None
   \/ exists res, net (author_request p) = Some res
                  /\ (res_ok res = false \/ res_json res = None)) ->
  exists e,
    main net p w
    = (Throw e, World (lastIndex w) (sent w ++ [author_request p]))
    /\ forall res,
         net (author_request p) = Some res -> res_ok res = false ->
         e = Error (str "AEM fetch failed: " ++ N_to_string (res_status res)
                    ++ str " " ++ res_text res).
Proof.
  intros Hpresent [Hnet|(res & Hnet & Hres)].
  - eexists. split; [by apply main_read_rejected|]. intros res. by rewrite Hnet.
  - destruct (res_ok res) eqn:Hok.
    + destruct Hres as [?|Hjson]; [done|]. eexists.
      split; [by eapply main_read_not_json|].
      intros res' Hnet'. rewrite Hnet in Hnet'. injection Hnet' as <-.
      by rewrite Hok.
    + eexists. split; [by eapply main_read_not_ok|].
      intros res' Hnet'. rewrite Hnet in Hnet'. by injection Hnet' as <-.
Qed.

Lemma read_failure_no_write_witness :
  exists e,
    main (fun _ => Some (Response false 503 (str "down") None)) demo_params
      (World 3 [])
    = (Throw e, World 3 ([] ++ [author_request demo_params]))
    /\ forall res,
         Some (Response false 503 (str "down") None) = Some res ->
         res_ok res = false ->
         e = Error (str "AEM fetch failed: " ++ N_to_string (res_status res)
                    ++ str " " ++ res_text res).
Proof.
  apply (read_failure_no_write
           (fun _ => Some (Response false 503 (str "down") None))
           demo_params (World 3 [])).
  - reflexivity.
  - right. eexists. split; [reflexivity|]. by left.
Defined.

Lemma resolveStaticTokens_cases tbl v li :
  (is_text v = true
   /\ exists v' li', resolveStaticTokens v tbl li = (Ok v', li'))
  \/ (is_text v = false
      /\ resolveStaticTokens v tbl li
         = (Throw (TypeError "input.replace is not a function"), li)).
Proof.
  destruct (is_text v) eqn:E.
  - left. split; [done|]. by apply resolveStaticTokens_text.
  - right. split; [done|]. by apply resolveStaticTokens_not_text.
Qed.



(** From a record whose four text fields are texts, the write is issued. *)
Lemma main_write_texts (net : network) (p : params) (w : world)
    (res : response) (cfJson : jsval) :
  missing (cfPath p) || missing (authorHost p) || missing (publishHost p)
  = false ->
  net (author_request p) = Some res ->
  res_ok res = true ->
  res_json res = Some cfJson ->
  ToBoolean (element_value cfJson "cardId") = true ->
  is_text (element_value cfJson "headline") = true ->
  is_text (element_value cfJson "body") = true ->
  is_text (element_value cfJson "ctaLabel") = true ->
  is_text (element_value cfJson "termsText") = true ->
  exists li pl,
    let q := publish_request p (element_value cfJson "cardId") pl
               (ttl_of cfJson) in
    main net p w
    = (write_result (req_url q) (net q),
       World li (sent w ++ [author_request p; q])).
Proof.
  intros Hpresent Hnet Hok Hjson Hid Hh Hb Hc Ht.
  set (tbl := default ∅ (staticTokens p)).
  destruct (resolveStaticTokens_text tbl _ (lastIndex w) Hh) as (h & l1 & Eh).
  destruct (resolveStaticTokens_text tbl _ l1 Hb) as (b & l2 & Eb).
  destruct (resolveStaticTokens_text tbl _ l2 Hc) as (c & l3 & Ec).
  destruct (resolveStaticTokens_text tbl _ l3 Ht) as (t & l4 & Et).
  exists l4, (payload_of cfJson h b c t).
  by apply (main_write net p w Hpresent res Hnet Hok cfJson Hjson Hid
              h l1 b l2 c l3 t l4).
Qed.

(** X9. For a record whose card id and time to live are primitive
    values: when the write is answered by a response that is not [ok],
    [main] throws an error with the message
    [AEM publish write failed: <status> <body>]; when it is answered [ok]
    with a body that is not JSON, [main] throws as well, although the
    write went through.  In both cases the read and the write are the
    requests of the run. *)
Theorem write_failure_throws (net : network) (p : params) (w : world)
    (res : response) (cfJson : jsval) (answer : response) :
  missing (cfPath p) || missing (authorHost p) || missing (publishHost p)
  = false ->
  net (author_request p) = Some res ->
  res_ok res = true ->
  res_json res = Some cfJson ->
  ToBoolean (element_value cfJson "cardId") = true ->
  primitive (element_value cfJson "cardId") = true ->
  primitive (element_value cfJson "cacheTTL") = true ->
  is_text (element_value cfJson "headline") = true ->
  is_text (element_value cfJson "body") = true ->
  is_text (element_value cfJson "ctaLabel") = true ->
  is_text (element_value cfJson "termsText") = true ->
  (forall q, req_method q = PUT -> net q = Some answer) ->
  res_ok answer = false \/ res_json answer = None ->
  exists e li q,
    main net p w = (Throw e, World li (sent w ++ [author_request p; q]))
    /\ req_method q = PUT
    /\ (res_ok answer = false ->
        e = Error (str "AEM publish write failed: "
                   ++ N_to_string (res_status answer)
                   ++ str " " ++ res_text answer)).
Proof.
  intros Hpresent Hnet Hok Hjson Hid _ _ Hh Hb Hc Ht Hput Hfail.
  destruct (main_write_texts net p w res cfJson) as (li & pl & Hrun);
    [done..|].
  cbv zeta in Hrun. rewrite Hput in Hrun by done. unfold write_result in Hrun.
  destruct (res_ok answer) eqn:Hans; cbn [negb] in Hrun.
  - destruct Hfail as [?|Hj]; [done|]. rewrite Hj in Hrun.
    eexists _, li, _. split; [exact Hrun|]. by split.
  - eexists _, li, _. split; [exact Hrun|]. by split.
Qed.

Lemma write_failure_throws_witness :
  exists e li q,
    main (serve_with headline_cup_record
            (Some (Response false 500 (str "boom") None)))
      demo_params (World 0 [])
    = (Throw e, World li ([] ++ [author_request demo_params; q]))
    /\ req_method q = PUT
    /\ (res_ok (Response false 500 (str "boom") None) = false ->
        e = Error (str "AEM publish write failed: "
                   ++ N_to_string
                        (res_status (Response false 500 (str "boom") None))
                   ++ str " "
                   ++ res_text (Response false 500 (str "boom") None))).
Proof.
  apply (write_failure_throws
           (serve_with headline_cup_record
              (Some (Response false 500 (str "boom") None)))
           demo_params (World 0 [])
           (Response true 200 [] (Some headline_cup_record))
           headline_cup_record (Response false 500 (str "boom") None));
    try reflexivity.
  - intros q Hq. unfold serve_with. by rewrite Hq.
  - by left.
Defined.

(** X10. When every step succeeds (the card id is a non-empty string,
    the time to live a primitive value) and the write is answered [ok]
    with a JSON body, [main] returns status 200 with the message
    [Card payload published] and the location of the card, which is the
    address the write went to: the destination host, [/content/cards/],
    the card id and [.json]. *)
Theorem publish_success (net : network) (p : params) (w : world)
    (res : response) (cfJson : jsval) (answer : response) (id : jsstring) :
  missing (cfPath p) || missing (authorHost p) || missing (publishHost p)
  = false ->
  net (author_request p) = Some res ->
  res_ok res = true ->
  res_json res = Some cfJson ->
  element_value cfJson "cardId" = JStr id -> id <> [] ->
  primitive (element_value cfJson "cacheTTL") = true ->
  is_text (element_value cfJson "headline") = true ->
  is_text (element_value cfJson "body") = true ->
  is_text (element_value cfJson "ctaLabel") = true ->
  is_text (element_value cfJson "termsText") = true ->
  (forall q, req_method q = PUT -> net q = Some answer) ->
  res_ok answer = true -> is_Some (res_json answer) ->
  let url :=
    opt_string (publishHost p) ++ str "/content/cards/" ++ id
    ++ str ".json" in
  exists li q,
    main net p w
    = (Ok (Outcome 200 (BodyPublished (str "Card payload published") url)),
       World li (sent w ++ [author_request p; q]))
    /\ req_method q = PUT /\ req_url q = url.
Proof.
  intros Hpresent Hnet Hok Hjson Hid Hne _ Hh Hb Hc Ht Hput Hans [j Hj] url.
  destruct (main_write_texts net p w res cfJson) as (li & pl & Hrun);
    [done|done|done|done|by rewrite Hid; destruct id|done|done|done|done|].
  cbv zeta in Hrun. rewrite Hput in Hrun by done. unfold write_result in Hrun.
  rewrite Hans, Hj in Hrun. cbn [negb] in Hrun.
  rewrite Hid in Hrun.
  exists li, (publish_request p (JStr id) pl (ttl_of cfJson)).
  split; [exact Hrun|]. by split.
Qed.

Lemma publish_success_witness :
  let url :=
    opt_string (publishHost demo_params) ++ str "/content/cards/"
    ++ str "cup" ++ str ".json" in
  exists li q,
    main (serve cup_record) demo_params (World 0 [])
    = (Ok (Outcome 200 (BodyPublished (str "Card payload published") url)),
       World li ([] ++ [author_request demo_params; q]))
    /\ req_method q = PUT /\ req_url q = url.
Proof.
  apply (publish_success (serve cup_record) demo_params (World 0 [])
           (Response true 200 [] (Some cup_record)) cup_record
           (Response true 200 (str "{}") (Some (JObj []))) (str "cup"));
    try reflexivity.
  - discriminate.
  - intros q Hq. unfold serve. by rewrite Hq.
  - by eexists.
Defined.

(** X11. What [main] returns without throwing: status 400 with no request
    at all, or status 422 behind the read alone, or status 200, and that
    only when the write was issued and answered [ok]; the location it
    reports is then the address of that write.  No other status is
    returned, and success is never reported without an accepted write. *)
Theorem outcome_statuses (net : network) (p : params) (w w' : world)
    (o : outcome) :
  main net p w = (Ok o, w') ->
  (o = Outcome 400 (BodyText (str "Missing required parameters"))
   /\ w' = w)
  \/ (o = Outcome 422 (BodyText (str "cardId is required"))
      /\ sent w' = sent w ++ [author_request p])
  \/ (exists q answer,
         o = Outcome 200
               (BodyPublished (str "Card payload published") (req_url q))
         /\ sent w' = sent w ++ [author_request p; q]
         /\ req_method q = PUT
         /\ net q = Some answer /\ res_ok answer = true).
Proof.
  intros Hrun.
  destruct (main_cases net p w)
    as [[_ E]|[(r & li & E & Hr)|(res & cfJson & h & l1 & b & l2 & c & l3
                                  & t & l4 & _ & _ & _ & _ & _ & _ & _ & _
                                  & E)]];
    rewrite E in Hrun.
  - left. by injection Hrun as <- <-.
  - right. left. injection Hrun as -> <-.
    destruct Hr as [Hr|[e Hr]]; [|done]. by injection Hr as <-.
  - right. right. cbv zeta in Hrun. injection Hrun as Hres <-.
    eexists _. unfold write_result in Hres.
    destruct (net _) as [answer|] eqn:Hans; [|done].
    destruct (res_ok answer) eqn:Hok; cbn [negb] in Hres; [|done].
    destruct (res_json answer); [|done]. injection Hres as <-.
    exists answer. repeat split; done.
Qed.

Lemma outcome_statuses_witness :
  let w' := (main (serve cup_record) demo_params (World 0 [])).2 in
  let o :=
    Outcome 200
      (BodyPublished (str "Card payload published")
         (str "https://publish.example.aem.cloud/content/cards/cup.json")) in
  (o = Outcome 400 (BodyText (str "Missing required parameters"))
   /\ w' = World 0 [])
  \/ (o = Outcome 422 (BodyText (str "cardId is required"))
      /\ sent w' = [] ++ [author_request demo_params])
  \/ (exists q answer,
         o = Outcome 200
               (BodyPublished (str "Card payload published") (req_url q))
         /\ sent w' = [] ++ [author_request demo_params; q]
         /\ req_method q = PUT
         /\ serve cup_record q = Some answer /\ res_ok answer = true).
Proof.
  intros w' o.
  apply (outcome_statuses (serve cup_record) demo_params (World 0 []) w' o).
  vm_compute. reflexivity.
Defined.

(** X12. The requests of a run, in order: none; or one read; or one read
    and then one write.  The read is a GET of the source location under
    the source host, with the source credential and no body; the write
    is a PUT under [/content/cards/] of the destination host, with the
    destination credential, a body, and a cache directive
    [public, max-age=<ttl>, immutable].  There is never a write without a
    read before it, never a second read or write, and neither credential
    is sent to the other host. *)
Theorem requests_of_a_run (net : network) (p : params) (w : world) :
  let is_read g :=
    req_method g = GET
    /\ req_url g
       = opt_string (authorHost p) ++ opt_string (cfPath p)
         ++ str ".model.json"
    /\ header g "Authorization"
       = Some (str "Bearer " ++ opt_string (authorAccessToken p))
    /\ req_body g = None in
  let is_write q :=
    req_method q = PUT
    /\ (opt_string (publishHost p) ++ str "/content/cards/")
         `prefix_of` req_url q
    /\ header q "Authorization"
       = Some (str "Bearer " ++ opt_string (publishAccessToken p))
    /\ (exists ttl,
           header q "Cache-Control"
           = Some (str "public, max-age=" ++ Number_toString ttl
                   ++ str ", immutable"))
    /\ is_Some (req_body q) in
  exists new,
    sent (main net p w).2 = sent w ++ new
    /\ (new = []
        \/ (exists g, new = [g] /\ is_read g)
        \/ (exists g q, new = [g; q] /\ is_read g /\ is_write q)).
Proof.
  intros is_read is_write.
  assert (is_read (author_request p)) as Hread by done.
  destruct (main_cases net p w)
    as [[_ E]|[(r & li & E & Hr)|(res & cfJson & h & l1 & b & l2 & c & l3
                                  & t & l4 & _ & _ & _ & _ & _ & _ & _ & _
                                  & E)]];
    rewrite E; cbn [snd sent].
  - exists []. split; [by rewrite app_nil_r|]. by left.
  - eexists. split; [done|]. right. left. by eexists.
  - eexists. split; [done|]. right. right. eexists _, _.
    split; [done|]. split; [done|]. split; [done|].
    split; [|split; [done|split; [by eexists|by eexists]]].
    cbn [req_url publish_request].
    rewrite (app_assoc _ (str "/content/cards/")).
    by apply prefix_app_r.
Qed.

(** A resolver call on the empty table that returns gives its input. *)
Lemma resolveStaticTokens_empty_table_inv v li h l' :
  resolveStaticTokens v ∅ li = (Ok h, l') -> h = v.
Proof.
  intros H. destruct (resolveStaticTokens_cases ∅ v li) as [[T _]|[_ E]].
  - destruct (resolveStaticTokens_empty_table v li T) as [l2 E].
    rewrite E in H. by injection H as <- _.
  - by rewrite E in H.
Qed.



(** X14. Published without a table of static tokens (the parameter is
    absent, or the table is empty), every write carries the four texts of
    the record exactly as they were fetched. *)
Theorem no_table_texts_unchanged (net : network) (p : params) (w w' : world)
    (r : result outcome) (new : list request) (res : response)
    (cfJson : jsval) (q : request) (pl : payload) :
  default ∅ (staticTokens p) = ∅ ->
  net (author_request p) = Some res ->
  res_json res = Some cfJson ->
  main net p w = (r, w') ->
  sent w' = sent w ++ new ->
  q ∈ new ->
  req_body q = Some pl ->
  p_headline pl = element_value cfJson "headline"
  /\ p_body pl = element_value cfJson "body"
  /\ p_ctaLabel pl = element_value cfJson "ctaLabel"
  /\ p_termsText pl = element_value cfJson "termsText".
Proof.
  intros Htbl Hnet Hjson Hrun Hsent Hq Hbody.
  destruct (main_cases net p w)
    as [[_ E]|[(r0 & li & E & Hr)|(res' & cfJson' & h & l1 & b & l2 & c
                                   & l3 & t & l4 & Hnet' & _ & Hjson' & Hid
                                   & Hh & Hb & Hc & Ht & E)]];
    rewrite E in Hrun; injection Hrun as <- <-; cbn [sent] in Hsent.
  - rewrite <- (app_nil_r (sent w)) in Hsent at 1.
    apply app_inv_head in Hsent as <-. by apply elem_of_nil in Hq.
  - apply app_inv_head in Hsent as <-.
    apply list_elem_of_singleton in Hq as ->. discriminate Hbody.
  - apply app_inv_head in Hsent as <-.
    rewrite Hnet in Hnet'. injection Hnet' as <-.
    rewrite Hjson in Hjson'. injection Hjson' as <-.
    apply elem_of_cons in Hq as [->|Hq]; [discriminate Hbody|].
    apply list_elem_of_singleton in Hq as ->. injection Hbody as <-.
    rewrite Htbl in Hh, Hb, Hc, Ht.
    apply resolveStaticTokens_empty_table_inv in Hh, Hb, Hc, Ht.
    by subst.
Qed.

Lemma no_table_texts_unchanged_witness :
  let pl := payload_of headline_cup_record (JStr (str "Hi {{x}}"))
              JUndefined JUndefined JUndefined in
  p_headline pl = element_value headline_cup_record "headline"
  /\ p_body pl = element_value headline_cup_record "body"
  /\ p_ctaLabel pl = element_value headline_cup_record "ctaLabel"
  /\ p_termsText pl = element_value headline_cup_record "termsText".
Proof.
  intros pl.
  pose (run := main (serve headline_cup_record) no_table_params (World 0 [])).
  apply (no_table_texts_unchanged (serve headline_cup_record) no_table_params
           (World 0 []) run.2 run.1 (sent run.2)
           (Response true 200 [] (Some headline_cup_record))
           headline_cup_record
           (publish_request no_table_params (JStr (str "cup")) pl
              (ttl_of headline_cup_record)) pl).
  - reflexivity.
  - reflexivity.
  - reflexivity.
  - apply surjective_pairing.
  - reflexivity.
  - vm_compute. apply list_elem_of_further, list_elem_of_here.
  - reflexivity.
Defined.

(** X15. Publishing is repeatable when no key of the table starts with
    [profile.] or holds an opening brace: whatever the state of the
    profile pattern, a run returns the same result and issues the same
    requests, so publishing a record again writes the same payload. *)
Theorem publish_repeatable (net : network) (p : params) (w1 w2 : world) :
  plain_keys (default ∅ (staticTokens p)) ->
  sent w1 = sent w2 ->
  (main net p w1).1 = (main net p w2).1
  /\ sent (main net p w1).2 = sent (main net p w2).2.
Proof.
  intros Hkeys Hsent. set (tbl := default ∅ (staticTokens p)) in *.
  destruct (missing (cfPath p) || missing (authorHost p)
            || missing (publishHost p)) eqn:Hpresent.
  { rewrite !main_missing by done. done. }
  destruct (net (author_request p)) as [res|] eqn:Hnet.
  2:{ rewrite !main_read_rejected by done. cbn. by rewrite Hsent. }
  destruct (res_ok res) eqn:Hok.
  2:{ rewrite !(main_read_not_ok net p _ Hpresent res) by done. cbn.
      by rewrite Hsent. }
  destruct (res_json res) as [cfJson|] eqn:Hjson.
  2:{ rewrite !(main_read_not_json net p _ Hpresent res) by done. cbn.
      by rewrite Hsent. }
  destruct (ToBoolean (element_value cfJson "cardId")) eqn:Hid.
  2:{ rewrite !(main_no_cardId net p _ Hpresent res cfJson) by done. cbn.
      by rewrite Hsent. }
  destruct (resolveStaticTokens (element_value cfJson "headline") tbl
              (lastIndex w1)) as [r1 l1] eqn:H1.
  destruct (resolveStaticTokens (element_value cfJson "body") tbl l1)
    as [r2 l2] eqn:H2.
  destruct (resolveStaticTokens (element_value cfJson "ctaLabel") tbl l2)
    as [r3 l3] eqn:H3.
  destruct (resolveStaticTokens (element_value cfJson "termsText") tbl l3)
    as [r4 l4] eqn:H4.
  destruct (resolveStaticTokens (element_value cfJson "headline") tbl
              (lastIndex w2)) as [r1' l1'] eqn:H1'.
  destruct (resolveStaticTokens (element_value cfJson "body") tbl l1')
    as [r2' l2'] eqn:H2'.
  destruct (resolveStaticTokens (element_value cfJson "ctaLabel") tbl l2')
    as [r3' l3'] eqn:H3'.
  destruct (resolveStaticTokens (element_value cfJson "termsText") tbl l3')
    as [r4' l4'] eqn:H4'.
  assert (r1' = r1) as ->.
  { pose proof (resolveStaticTokens_any_state tbl
                  (element_value cfJson "headline") (lastIndex w2)
                  (lastIndex w1) Hkeys) as E. by rewrite H1, H1' in E. }
  assert (r2' = r2) as ->.
  { pose proof (resolveStaticTokens_any_state tbl
                  (element_value cfJson "body") l1' l1 Hkeys) as E.
    by rewrite H2, H2' in E. }
  assert (r3' = r3) as ->.
  { pose proof (resolveStaticTokens_any_state tbl
                  (element_value cfJson "ctaLabel") l2' l2 Hkeys) as E.
    by rewrite H3, H3' in E. }
  assert (r4' = r4) as ->.
  { pose proof (resolveStaticTokens_any_state tbl
                  (element_value cfJson "termsText") l3' l3 Hkeys) as E.
    by rewrite H4, H4' in E. }
  pose proof (main_resolver_throws net p w1 Hpresent res Hnet Hok cfJson
                Hjson Hid _ _ _ _ _ _ _ _ H1 H2 H3 H4) as Hthrow1.
  pose proof (main_resolver_throws net p w2 Hpresent res Hnet Hok cfJson
                Hjson Hid _ _ _ _ _ _ _ _ H1' H2' H3' H4') as Hthrow2.
  assert (forall e,
             (exists li, main net p w1
                         = (Throw e, World li (sent w1 ++ [author_request p])))
             -> (exists li, main net p w2
                            = (Throw e,
                               World li (sent w2 ++ [author_request p])))
             -> (main net p w1).1 = (main net p w2).1
                /\ sent (main net p w1).2 = sent (main net p w2).2) as Hsame.
  { intros e [? ->] [? ->]. cbn. by rewrite Hsent. }
  destruct r1 as [h|e1]; [|by apply (Hsame e1); auto].
  destruct r2 as [b|e2]; [|by apply (Hsame e2); auto].
  destruct r3 as [c|e3]; [|by apply (Hsame e3); auto].
  destruct r4 as [t|e4]; [|by apply (Hsame e4); auto].
  rewrite (main_write net p w1 Hpresent res Hnet Hok cfJson Hjson Hid
             h l1 b l2 c l3 t l4) by done.
  rewrite (main_write net p w2 Hpresent res Hnet Hok cfJson Hjson Hid
             h l1' b l2' c l3' t l4') by done.
  cbn. by rewrite Hsent.
Qed.

Lemma publish_repeatable_witness :
  (main (serve cup_record) demo_params (World 0 [])).1
  = (main (serve cup_record) demo_params (World 16 [])).1
  /\ sent (main (serve cup_record) demo_params (World 0 [])).2
     = sent (main (serve cup_record) demo_params (World 16 [])).2.
Proof.
  apply (publish_repeatable (serve cup_record) demo_params
           (World 0 []) (World 16 [])).
  - exact brand_table_plain_keys.
  - reflexivity.
Defined.

(** * The scan of [replace] *)

Section Replace.
Context {St : Type}.
Variable r : regex.
Variable f : match_result -> M St jsstring.
Hypothesis Hne : forall s m, match_at r s = Some m -> matched m <> [].

Lemma match_at_nil_None : match_at r [] = None.
Proof.
  destruct (match_at r []) as [m|] eqn:E; [|done].
  pose proof (match_at_split _ _ _ E) as Hs. apply Hne in E.
  symmetry in Hs. by apply app_eq_nil in Hs as [? _].
Qed.

Lemma scans_skip i : forall s st out st',
  (forall j, (j < i)%nat -> match_at r (drop j s) = None) ->
  (i <= length s)%nat ->
  scans r f (drop i s) st out st' ->
  scans r f s st (take i s ++ out) st'.
Proof.
  induction i as [|i IH]; intros s st out st' Hlt Hle H; [done|].
  destruct s as [|a s]; [simpl in Hle; lia|]. simpl in *.
  apply scans_copy.
  - apply (Hlt O). lia.
  - apply IH; [|lia|done]. intros j Hj. apply (Hlt (S j)). lia.
Qed.

Lemma scans_nomatch s st :
  (forall j, match_at r (drop j s) = None) -> scans r f s st s st.
Proof.
  induction s as [|a s IH]; intros H; [constructor|].
  apply scans_copy; [apply (H O)|]. apply IH. intros j. apply (H (S j)).
Qed.

Lemma scans_skip_inv i : forall s st out st',
  (forall j, (j < i)%nat -> match_at r (drop j s) = None) ->
  (i <= length s)%nat ->
  scans r f s st out st' ->
  exists out', out = take i s ++ out' /\ scans r f (drop i s) st out' st'.
Proof.
  induction i as [|i IH]; intros s st out st' Hlt Hle H.
  - exists out. by rewrite drop_0.
  - destruct s as [|a s]; [simpl in Hle; lia|].
    assert (match_at r (a :: s) = None) as Hz by (apply (Hlt O); lia).
    inversion H; subst; [|congruence].
    match goal with
    | H1 : scans r f s _ _ _ |- _ =>
        apply IH in H1 as (out' & -> & H1);
          [by exists out'|intros j Hj; apply (Hlt (S j)); lia|simpl in Hle; lia]
    end.
Qed.

Lemma scans_nomatch_inv s st out st' :
  (forall j, match_at r (drop j s) = None) ->
  scans r f s st out st' -> out = s /\ st' = st.
Proof.
  intros Hno H. induction H as [|c s st out st' _ _ IH|s m st]; [done| |].
  - destruct IH as [-> ->]; [|done]. intros j. apply (Hno (S j)).
  - pose proof (Hno O) as Hz. rewrite drop_0 in Hz. congruence.
Qed.

Lemma scans_replace_loop n : forall s st out st',
  (length s < n)%nat ->
  scans r f s st out st' ->
  replace_loop n r f s st = (Ok out, st').
Proof.
  induction n as [|n IH]; intros s st out st' Hn H; [lia|].
  cbn [replace_loop]. destruct (search r s) as [[i m]|] eqn:Es.
  - apply search_Some in Es as (Hm & Hlt & Hle).
    destruct (scans_skip_inv i _ _ _ _ Hlt Hle H) as (out' & -> & H').
    clear H. remember (drop i s) as u eqn:Eu.
    destruct H' as [st|c u st out st' Hc _|u m' st v st1 out st2 Hm' Hv H].
    + by rewrite match_at_nil_None in Hm.
    + congruence.
    + rewrite Hm in Hm'. injection Hm' as <-.
      pose proof (match_at_split _ _ _ Hm) as Hs.
      pose proof (Hne _ _ Hm) as Hmne.
      unfold bind at 1. rewrite Hv.
      destruct (matched m) as [|a t] eqn:Em; [done|].
      assert (length (rest m) < n)%nat as Hr.
      { apply (f_equal length) in Hs. rewrite Eu in Hs.
        rewrite length_drop, length_app in Hs. simpl in Hs. lia. }
      unfold bind, ret. by rewrite (IH _ _ _ _ Hr H).
  - apply scans_nomatch_inv in H as [-> ->]; [done|]. by apply search_None.
Qed.

Lemma replace_loop_scans n : forall s st out st',
  (length s < n)%nat ->
  replace_loop n r f s st = (Ok out, st') ->
  scans r f s st out st'.
Proof.
  induction n as [|n IH]; intros s st out st' Hn; [lia|].
  cbn [replace_loop]. destruct (search r s) as [[i m]|] eqn:Es.
  - apply search_Some in Es as (Hm & Hlt & Hle).
    pose proof (match_at_split _ _ _ Hm) as Hs.
    pose proof (Hne _ _ Hm) as Hmne.
    unfold bind at 1. destruct (f m st) as [[v|e] st1] eqn:Hv; [|done].
    destruct (matched m) as [|a t] eqn:Em; [done|].
    unfold bind, ret.
    destruct (replace_loop n r f (rest m) st1) as [[o|e] st2] eqn:Hl; [|done].
    assert (length (rest m) < n)%nat as Hr.
    { apply (f_equal length) in Hs.
      rewrite length_drop, length_app in Hs. simpl in Hs. lia. }
    intros [= <- <-]. apply scans_skip; [done..|].
    eapply scans_match; [exact Hm|exact Hv|]. by apply IH.
  - intros [= <- <-]. apply scans_nomatch. by apply search_None.
Qed.

(** [replace] returns a text exactly when the scan relation gives it. *)
Lemma replace_scans s st out st' :
  replace r f s st = (Ok out, st') <-> scans r f s st out st'.
Proof.
  split.
  - apply replace_loop_scans. lia.
  - apply scans_replace_loop. lia.
Qed.

(** Text in which no match starts is copied. *)
Lemma scans_app_copy pre s st out st' :
  (forall a t, a ∈ pre -> match_at r (a :: t) = None) ->
  scans r f s st out st' ->
  scans r f (pre ++ s) st (pre ++ out) st'.
Proof.
  induction pre as [|h pre IH]; intros Hpre H; [done|]. simpl.
  apply scans_copy.
  - apply Hpre. by left.
  - apply IH; [|done]. intros a t Ha. apply Hpre. by right.
Qed.
End Replace.

(** * The renderer *)

(** ** The pattern of the renderer *)

Lemma rmatch_path_head {R} x cap
    (K : jsstring -> option jsstring -> option R) :
  rmatch PROFILE_PATH_REGEX (LBRACE :: LBRACE :: x) cap K
  = star is_ws x
      (fun x1 => rmatch (lits (str "profile.")) x1 cap
                   (fun x2 cap' => rmatch TOKEN_TAIL x2 cap' K)).
Proof. reflexivity. Qed.

Lemma profile_token_app w d r :
  profile_token w d ++ r
  = LBRACE :: LBRACE :: w ++ str "profile." ++ d ++ RBRACE :: RBRACE :: r.
Proof.
  unfold profile_token. rewrite token_app.
  by repeat (rewrite <- app_assoc; simpl).
Qed.

(** The pattern matches a profile token and captures its path in full,
    the white space before the closing braces included. *)
Lemma match_at_path_complete w d r :
  Forall (fun a => is_ws a = true) w ->
  d <> [] -> Forall (fun a => not_rbrace a = true) d ->
  match_at PROFILE_PATH_REGEX (profile_token w d ++ r)
  = Some (MatchResult (profile_token w d) (Some d) r).
Proof.
  intros Hw Hne Hd. unfold match_at.
  set (s := profile_token w d ++ r) at 2 3.
  assert (take (length s - length r) s = profile_token w d)
    as Htake by apply take_length_suffix.
  clearbody s. rewrite profile_token_app, rmatch_path_head.
  apply star_greedy; [done|].
  change (str "profile.") with (112 :: str "rofile.") at 1.
  cbn [app]. rewrite star_stop by reflexivity.
  change (112 :: str "rofile." ++ ?x) with (str "profile." ++ x).
  rewrite rmatch_lits. apply rmatch_token_tail; [done..|].
  by rewrite Htake.
Qed.

Lemma match_at_path_shape u m :
  match_at PROFILE_PATH_REGEX u = Some m ->
  exists w d r,
    u = profile_token w d ++ r
    /\ Forall (fun a => is_ws a = true) w
    /\ d <> [] /\ Forall (fun a => not_rbrace a = true) d.
Proof.
  unfold match_at.
  destruct u as [|a [|b x]]; [done|by cbn; destruct (a =? LBRACE)|].
  destruct (N.eqb_spec a LBRACE) as [->|Ha];
    [|by cbn; destruct (N.eqb_spec a LBRACE)].
  destruct (N.eqb_spec b LBRACE) as [->|Hb];
    [|by cbn; destruct (N.eqb_spec b LBRACE)].
  rewrite rmatch_path_head.
  intros H. apply star_inv in H as (w & x1 & -> & Hw & H).
  apply rmatch_lits_inv in H as (x2 & -> & H).
  unfold TOKEN_TAIL in H. cbn [cat foldr rmatch] in H.
  destruct x2 as [|h x2]; [done|].
  destruct (not_rbrace h) eqn:Hh; [|done].
  apply star_inv in H as (d & x3 & -> & Hd & H).
  apply star_inv in H as (w2 & x4 & -> & Hw2 & H).
  destruct x4 as [|e [|g r]]; [done|by destruct (e =? RBRACE)|].
  destruct (N.eqb_spec e RBRACE) as [->|]; [|done].
  destruct (N.eqb_spec g RBRACE) as [->|]; [|done].
  exists w, (h :: d ++ w2), r. split.
  { rewrite profile_token_app. cbn [app]. by rewrite <- app_assoc. }
  split; [done|]. split; [done|]. constructor; [done|].
  apply Forall_app. split; [done|]. by apply Forall_ws_not_rbrace.
Qed.

Lemma match_at_path_inv u m :
  match_at PROFILE_PATH_REGEX u = Some m ->
  exists w d r,
    u = profile_token w d ++ r
    /\ Forall (fun a => is_ws a = true) w
    /\ d <> [] /\ Forall (fun a => not_rbrace a = true) d
    /\ m = MatchResult (profile_token w d) (Some d) r.
Proof.
  intros H.
  destruct (match_at_path_shape _ _ H) as (w & d & r & -> & ? & ? & ?).
  exists w, d, r. rewrite match_at_path_complete in H by done.
  by simplify_eq.
Qed.

Lemma path_match_nonempty s m :
  match_at PROFILE_PATH_REGEX s = Some m -> matched m <> [].
Proof.
  intros H.
  by destruct (match_at_path_inv _ _ H)
    as (? & ? & ? & _ & _ & _ & _ & ->).
Qed.

Lemma match_at_path_not_lbrace a t :
  a <> LBRACE -> match_at PROFILE_PATH_REGEX (a :: t) = None.
Proof.
  intros Ha. unfold match_at. cbn.
  by destruct (N.eqb_spec a LBRACE).
Qed.

Lemma profile_token_free_no_match t j :
  profile_token_free t -> match_at PROFILE_PATH_REGEX (drop j t) = None.
Proof.
  intros Hfree. destruct (match_at _ _) as [m|] eqn:E; [|done].
  destruct (match_at_path_shape _ _ E) as (w & d & r & Hs & _).
  destruct (Hfree (take j t) w d r). by rewrite <- Hs, take_drop.
Qed.

(** ** The walk through the profile *)

Section RendererFacts.
Variable native : Type.
Variable builtin_get : pvalue native -> jsstring -> pvalue native.
Variable display : pvalue native -> result jsstring.

Lemma walk_undefined keys :
  walk builtin_get keys (inl JUndefined) = inl JUndefined.
Proof. by induction keys. Qed.

Lemma walk_falsy keys a :
  truthy a = false -> keys <> [] -> walk builtin_get keys a = inl JUndefined.
Proof.
  intros Ha Hk. destruct keys as [|k keys]; [done|].
  unfold walk. cbn [fold_left]. rewrite Ha. apply walk_undefined.
Qed.

Lemma walk_app ks1 ks2 a :
  walk builtin_get (ks1 ++ ks2) a
  = walk builtin_get ks2 (walk builtin_get ks1 a).
Proof. apply fold_left_app. Qed.

Lemma walk_own keys : forall v v',
  own_walk v keys = Some v' -> walk builtin_get keys (inl v) = inl v'.
Proof.
  induction keys as [|k keys IH]; intros v v'; cbn [own_walk].
  - by intros [= ->].
  - destruct v as [| | | | | |fields]; try done.
    destruct (lookup_own k fields) as [v1|] eqn:E; [|done].
    intros H. unfold walk. cbn [fold_left truthy ToBoolean prop_get].
    rewrite E. by apply IH.
Qed.

Section Profile.
Variable profile : pvalue native.

Lemma replacer_found tok d r v txt :
  walk builtin_get (split_on DOT d) profile = inl v ->
  primitive_string v = Some txt ->
  profile_replacer builtin_get display profile
    (MatchResult tok (Some d) r) tt = (Ok txt, tt).
Proof.
  intros Hw Hv. unfold profile_replacer. cbn [group1]. rewrite Hw.
  destruct v as [| |[]| | | |]; by simplify_eq/=.
Qed.

Lemma replacer_nullish tok d r v :
  walk builtin_get (split_on DOT d) profile = inl v ->
  v = JUndefined \/ v = JNull ->
  profile_replacer builtin_get display profile
    (MatchResult tok (Some d) r) tt = (Ok tok, tt).
Proof.
  intros Hw Hv. unfold profile_replacer. cbn [group1]. rewrite Hw.
  by destruct Hv as [-> | ->].
Qed.

(** On a string the renderer returns what the scan gives. *)
Lemma render_scans s out :
  resolveProfileTokens builtin_get display (JStr s) profile = Ok (JStr out)
  <-> scans PROFILE_PATH_REGEX
        (profile_replacer builtin_get display profile) s tt out tt.
Proof.
  unfold resolveProfileTokens. destruct s as [|a s].
  - cbn. split.
    + intros [= <-]. constructor.
    + intros H. inversion H; subst; [done|].
      match goal with
      | Hm : match_at _ [] = Some _ |- _ => by vm_compute in Hm
      end.
  - cbn [ToBoolean negb].
    destruct (replace _ _ _ _) as [[o|e] []] eqn:E.
    + apply (replace_scans _ _ path_match_nonempty) in E. split.
      * by intros [= <-].
      * intros H. apply (replace_scans _ _ path_match_nonempty) in H.
        apply (replace_scans _ _ path_match_nonempty) in E.
        rewrite E in H. by simplify_eq.
    + split; [done|]. intros H.
      apply (replace_scans _ _ path_match_nonempty) in H.
      rewrite E in H. by simplify_eq.
Qed.

(** The scan around one profile token: the text before it, without an
    opening brace, is copied, and the function decides on the token. *)
Lemma scans_around_token pre w d post v out :
  LBRACE ∉ pre ->
  Forall (fun a => is_ws a = true) w ->
  d <> [] -> RBRACE ∉ d ->
  profile_replacer builtin_get display profile
    (MatchResult (profile_token w d) (Some d) post) tt = (Ok v, tt) ->
  scans PROFILE_PATH_REGEX
    (profile_replacer builtin_get display profile) post tt out tt ->
  scans PROFILE_PATH_REGEX
    (profile_replacer builtin_get display profile)
    (pre ++ profile_token w d ++ post) tt (pre ++ v ++ out) tt.
Proof.
  intros Hpre Hw Hne Hd Hv H. apply not_rbrace_Forall in Hd.
  apply scans_app_copy.
  - intros a t Ha. apply match_at_path_not_lbrace. by intros ->.
  - eapply scans_match; [by apply match_at_path_complete|exact Hv|done].
Qed.
End Profile.
End RendererFacts.

Lemma Forall_not_rbrace d :
  Forall (fun a => not_rbrace a = true) d -> RBRACE ∉ d.
Proof.
  intros H Hin. apply (proj1 (Forall_forall _ _) H) in Hin.
  by rewrite not_rbrace_RBRACE in Hin.
Qed.

Lemma no_lbrace_profile_token_free t : LBRACE ∉ t -> profile_token_free t.
Proof.
  intros H a w d b ->. apply H. rewrite profile_token_app.
  apply elem_of_app. right. by left.
Qed.

Lemma scans_no_lbrace {St} (f : match_result -> M St jsstring) t st :
  LBRACE ∉ t -> scans PROFILE_PATH_REGEX f t st t st.
Proof.
  intros H. apply scans_nomatch. intros j.
  by apply profile_token_free_no_match, no_lbrace_profile_token_free.
Qed.

(** X16. The pattern of the renderer matches at the head of a text
    exactly when the text starts with two opening braces, white space,
    [profile.], a non-empty path without a closing brace and two closing
    braces; the path it captures is everything between [profile.] and the
    closing braces, white space at its end included. *)
Theorem profile_path_pattern (s : jsstring) (m : match_result) :
  match_at PROFILE_PATH_REGEX s = Some m <->
  exists w d r,
    s = profile_token w d ++ r
    /\ Forall (fun a => is_ws a = true) w
    /\ d <> [] /\ (RBRACE ∉ d)
    /\ m = MatchResult (profile_token w d) (Some d) r.
Proof.
  split.
  - intros H.
    destruct (match_at_path_inv _ _ H) as (w & d & r & ? & ? & ? & Hd & ?).
    exists w, d, r. by apply Forall_not_rbrace in Hd.
  - intros (w & d & r & -> & Hw & Hne & Hd & ->).
    apply match_at_path_complete; [done..|]. by apply not_rbrace_Forall.
Qed.

(** X17. A profile token whose path leads, through own properties of the
    profile, to a string, a number or a boolean is replaced by the text
    of that value (an empty string erases the token); the text before it
    is copied and the text behind it resolved in the same way. *)
Theorem profile_token_resolved {native : Type}
    (builtin_get : pvalue native -> jsstring -> pvalue native)
    (display : pvalue native -> result jsstring)
    (profile leaf : jsval) (pre w d post txt out : jsstring) :
  LBRACE ∉ pre ->
  Forall (fun a => is_ws a = true) w ->
  d <> [] -> RBRACE ∉ d ->
  own_walk profile (split_on DOT d) = Some leaf ->
  primitive_string leaf = Some txt ->
  resolveProfileTokens builtin_get display (JStr post) (inl profile)
  = Ok (JStr out) ->
  resolveProfileTokens builtin_get display
    (JStr (pre ++ profile_token w d ++ post)) (inl profile)
  = Ok (JStr (pre ++ txt ++ out)).
Proof.
  intros Hpre Hw Hne Hd Hwalk Hleaf Hpost.
  apply render_scans. apply render_scans in Hpost.
  apply scans_around_token; [done..| |done].
  eapply replacer_found; [|exact Hleaf]. by apply walk_own.
Qed.

Lemma profile_token_resolved_witness :
  resolveProfileTokens no_builtin no_display
    (JStr (str "Hi " ++ profile_token [] (str "address.city") ++ str "!"))
    (inl ann_profile)
  = Ok (JStr (str "Hi " ++ str "Oslo" ++ str "!")).
Proof.
  apply (profile_token_resolved no_builtin no_display ann_profile
           (JStr (str "Oslo")) (str "Hi ") [] (str "address.city")
           (str "!") (str "Oslo") (str "!"));
    first [by_compute | by vm_compute].
Defined.

(** X18. A profile token stays as written, and nothing is thrown, when
    the walk along its path meets, through own properties, a falsy value
    before the end of the path, or [null] or [undefined] at its end; so
    it does when no profile is given. *)
Theorem profile_token_kept_without_value {native : Type}
    (builtin_get : pvalue native -> jsstring -> pvalue native)
    (display : pvalue native -> result jsstring)
    (profile v : jsval) (ks1 ks2 : list jsstring)
    (pre w d post out : jsstring) :
  LBRACE ∉ pre ->
  Forall (fun a => is_ws a = true) w ->
  d <> [] -> RBRACE ∉ d ->
  split_on DOT d = ks1 ++ ks2 ->
  own_walk profile ks1 = Some v ->
  ToBoolean v = false ->
  ks2 <> [] \/ v = JNull \/ v = JUndefined ->
  resolveProfileTokens builtin_get display (JStr post) (inl profile)
  = Ok (JStr out) ->
  resolveProfileTokens builtin_get display
    (JStr (pre ++ profile_token w d ++ post)) (inl profile)
  = Ok (JStr (pre ++ profile_token w d ++ out)).
Proof.
  intros Hpre Hw Hne Hd Hsplit Hwalk Hv Hend Hpost.
  apply render_scans. apply render_scans in Hpost.
  apply scans_around_token; [done..| |done].
  assert (exists u, walk builtin_get (split_on DOT d) (inl profile) = inl u
                    /\ (u = JUndefined \/ u = JNull)) as (u & Hu & Hnull).
  { rewrite Hsplit, walk_app, (walk_own _ _ _ _ _ Hwalk).
    destruct ks2 as [|k ks2].
    - exists v. split; [done|]. destruct Hend as [|[]]; [done|by right|by left].
    - exists JUndefined. split; [|by left]. by apply walk_falsy. }
  by eapply replacer_nullish.
Qed.

Lemma profile_token_kept_without_value_witness :
  resolveProfileTokens no_builtin no_display
    (JStr (str "Hi " ++ profile_token [] (str "name") ++ str "!"))
    (inl JUndefined)
  = Ok (JStr (str "Hi " ++ profile_token [] (str "name") ++ str "!")).
Proof.
  apply (profile_token_kept_without_value no_builtin no_display
           JUndefined JUndefined [] [str "name"]
           (str "Hi ") [] (str "name") (str "!") (str "!"));
    first [by_compute | by vm_compute | by left].
Defined.

(** X19. A profile token stays as written when a key of its path is
    neither an own property of the object the walk has reached nor
    answered by the environment.  The path is not trimmed: with white
    space before the closing braces the last key carries that white
    space, and the property without it is not found. *)
Theorem profile_token_kept_missing_key {native : Type}
    (builtin_get : pvalue native -> jsstring -> pvalue native)
    (display : pvalue native -> result jsstring)
    (profile : jsval) (fields : list (jsstring * jsval))
    (ks1 : list jsstring) (k : jsstring) (ks2 : list jsstring)
    (pre w d post out : jsstring) :
  LBRACE ∉ pre ->
  Forall (fun a => is_ws a = true) w ->
  d <> [] -> RBRACE ∉ d ->
  split_on DOT d = ks1 ++ k :: ks2 ->
  own_walk profile ks1 = Some (JObj fields) ->
  lookup_own k fields = None ->
  builtin_get (inl (JObj fields)) k = inl JUndefined ->
  resolveProfileTokens builtin_get display (JStr post) (inl profile)
  = Ok (JStr out) ->
  resolveProfileTokens builtin_get display
    (JStr (pre ++ profile_token w d ++ post)) (inl profile)
  = Ok (JStr (pre ++ profile_token w d ++ out)).
Proof.
  intros Hpre Hw Hne Hd Hsplit Hwalk Hown Hget Hpost.
  apply render_scans. apply render_scans in Hpost.
  apply scans_around_token; [done..| |done].
  eapply replacer_nullish; [|by left].
  rewrite Hsplit, walk_app, (walk_own _ _ _ _ _ Hwalk).
  unfold walk. cbn [fold_left truthy ToBoolean prop_get].
  rewrite Hown, Hget. apply walk_undefined.
Qed.

Lemma profile_token_kept_missing_key_witness :
  lookup_own (str "name") [(str "name", JStr (str "Ann"))]
  = Some (JStr (str "Ann"))
  /\ resolveProfileTokens no_builtin no_display
       (JStr (str "Hi " ++ profile_token [] (str "name ") ++ str "!"))
       (inl (JObj [(str "name", JStr (str "Ann"))]))
     = Ok (JStr (str "Hi " ++ profile_token [] (str "name ") ++ str "!")).
Proof.
  split; [by vm_compute|].
  apply (profile_token_kept_missing_key no_builtin no_display
           (JObj [(str "name", JStr (str "Ann"))])
           [(str "name", JStr (str "Ann"))] [] (str "name ") []
           (str "Hi ") [] (str "name ") (str "!") (str "!"));
    first [by_compute | by vm_compute].
Defined.



(** * Publishing, then rendering *)

(** X21. A text with a static token followed by a profile token goes
    through both stages as intended: the publisher replaces the static
    token by the value of the table and keeps the profile token, for
    every state of the profile pattern and every table, and the renderer
    then replaces the profile token by the value of the profile.  The
    texts around the tokens and the value of the static token hold no
    opening brace. *)
Theorem publish_then_render {native : Type}
    (builtin_get : pvalue native -> jsstring -> pvalue native)
    (display : pvalue native -> result jsstring)
    (tbl : gmap jsstring jsstring) (profile leaf : jsval)
    (pre c mid w d post v1 v2 : jsstring) (li : nat) :
  LBRACE ∉ pre -> LBRACE ∉ mid -> LBRACE ∉ post ->
  c <> [] -> RBRACE ∉ c -> LBRACE ∉ c ->
  ~ (str "profile." `prefix_of` trim c) ->
  tbl !! trim c = Some v1 -> LBRACE ∉ v1 ->
  Forall (fun a => is_ws a = true) w ->
  d <> [] -> RBRACE ∉ d ->
  own_walk profile (split_on DOT d) = Some leaf ->
  primitive_string leaf = Some v2 ->
  let published := pre ++ v1 ++ mid ++ profile_token w d ++ post in
  exists li',
    resolveStaticTokens
      (JStr (pre ++ token c ++ mid ++ profile_token w d ++ post)) tbl li
    = (Ok (JStr published), li')
    /\ resolveProfileTokens builtin_get display (JStr published)
         (inl profile)
       = Ok (JStr (pre ++ v1 ++ mid ++ v2 ++ post)).
Proof.
  intros Hpre Hmid Hpost Hne Hrb Hlb Hprof Hk Hv1 Hw Hdne Hd Hwalk Hleaf
    published.
  exists (length (profile_token w d)). split.
  - rewrite resolveStaticTokens_str.
    assert (resolve_text tbl
              (pre ++ token c ++ mid ++ profile_token w d ++ post) li
            = (Ok published, length (profile_token w d))) as ->; [|done].
    apply resolve_text_resolves. apply resolves_prefix; [done|].
    eapply resolves_token.
    { apply match_at_token_complete; [done|by apply not_rbrace_Forall]. }
    { rewrite replacer_token, profile_test_false by done.
      cbn [fst snd]. by rewrite Hk. }
    cbn [rest]. apply resolves_prefix; [done|].
    unfold profile_token. eapply resolves_token.
    { apply match_at_token_complete; [by destruct w|].
      rewrite !Forall_app. split; [by apply Forall_ws_not_rbrace|].
      split; [by_compute|by apply not_rbrace_Forall]. }
    { rewrite replacer_token, profile_test_fresh;
        [reflexivity|done..|by apply not_rbrace_Forall]. }
    cbn [rest]. rewrite <- (app_nil_r post) at 1 2.
    apply resolves_prefix; [done|]. constructor.
  - unfold published.
    replace (pre ++ v1 ++ mid ++ profile_token w d ++ post)
      with ((pre ++ v1 ++ mid) ++ profile_token w d ++ post)
      by (by rewrite <- !app_assoc).
    replace (pre ++ v1 ++ mid ++ v2 ++ post)
      with ((pre ++ v1 ++ mid) ++ v2 ++ post)
      by (by rewrite <- !app_assoc).
    apply render_scans. apply scans_around_token; [|done..| |].
    + rewrite !not_elem_of_app. done.
    + eapply replacer_found; [|exact Hleaf]. by apply walk_own.
    + by apply scans_no_lbrace.
Qed.

Lemma publish_then_render_witness :
  exists li',
    resolveStaticTokens
      (JStr (str "Hi " ++ token (str "env.brand") ++ str ", "
             ++ profile_token [] (str "name") ++ str "!"))
      brand_table 7%nat
    = (Ok (JStr (str "Hi " ++ str "Acme" ++ str ", "
                 ++ profile_token [] (str "name") ++ str "!")), li')
    /\ resolveProfileTokens no_builtin no_display
         (JStr (str "Hi " ++ str "Acme" ++ str ", "
                ++ profile_token [] (str "name") ++ str "!"))
         (inl ann_profile)
       = Ok (JStr (str "Hi " ++ str "Acme" ++ str ", " ++ str "Ann"
                   ++ str "!")).
Proof.
  apply (publish_then_render no_builtin no_display brand_table ann_profile
           (JStr (str "Ann")) (str "Hi ") (str "env.brand") (str ", ") []
           (str "name") (str "!") (str "Acme") (str "Ann") 7%nat);
    first [by_compute | by vm_compute].
Defined.
